(** * zeta.headers: header codec, header store and fork-choice scoring

    A shallow embedding of [zeta/headers.py] (with the [headers] table of
    [zeta/db/connection.py]) and the properties its specification states.

    Representation.
    - A Python [bytes] value is a [list byte].  The header keys that hold the
      output of [bytes.hex()] ([hash], [prev_block], [merkle_root], [nbits],
      [nonce]) are kept as the byte strings they display, so that
      [bytes.fromhex(header['nbits'])] is the identity and
      [int(header['hash'], 16)] is [be2i].  The raw header given to
      [parse_header] is a real [string], decoded by [bytes_fromhex].
    - Python integers are unbounded: [Z].
    - A header dict carries nine parsed keys ([Fields]); the keys [height] and
      [accumulated_work] may be absent ([Header]); a dict holding all eleven
      keys, which is what the table stores and what the batch path works on,
      is a [Row].
    - The [headers] table is the list of its rows in rowid order, as seen
      through the single module-level connection.
    - An exception raised by [cursor.execute] or [connection.commit] is an
      outcome chosen by the environment ([Faults]); reads are taken to
      succeed.  The faults covered are those after which SQLite leaves the
      open transaction in place (a value that cannot be bound, a missing
      binding): the table is then the one the connection still shows.  On
      an error that makes SQLite roll the open transaction back (a full
      disk, an I/O error) the returned value is the same, but the table is
      the last committed one, which is not tracked here: what is stated
      about the table after a call that returned false is about the first
      kind of fault only.
    - The dicts of a batch are distinct objects; what the calls leave in
      the caller's dicts is not part of the state.
    - [riemann.utils.hash256] is a parameter of the development. *)

From Stdlib Require Import ZArith List String Ascii Bool Lia.
From Stdlib Require Import QArith Qround Qpower.
From Stdlib Require Import Strings.Byte.
Import ListNotations.

Local Open Scope Z_scope.

(* ------------------------------------------------------------------ *)
(** ** Exceptions *)

Inductive Exn : Set :=
| ValueError
| ZeroDivisionError.

Inductive Result (A : Type) : Type :=
| Return (a : A)
| Raise (e : Exn).

Arguments Return {A} a.
Arguments Raise {A} e.

Definition bind {A B : Type} (r : Result A) (k : A -> Result B) : Result B :=
  match r with
  | Return a => k a
  | Raise e => Raise e
  end.

Notation "x <- r ;; k" := (bind r (fun x => k))
  (at level 61, r at next level, right associativity).

(* ------------------------------------------------------------------ *)
(** ** Bytes *)

Definition bytes := list byte.

Definition byte_val (b : byte) : Z := Z.of_N (Byte.to_N b).

Definition bytes_eqb (a b : bytes) : bool :=
  if list_eq_dec Byte.byte_eq_dec a b then true else false.

(** [b[lo:hi]] for non-negative bounds; Python clips at the end. *)
Definition slice (lo hi : nat) (b : bytes) : bytes :=
  firstn (hi - lo) (skipn lo b).

(** [b[-1:]] *)
Definition last_byte (b : bytes) : bytes := skipn (List.length b - 1) b.

(** [b[:-1]] *)
Definition but_last (b : bytes) : bytes := firstn (List.length b - 1) b.

(** [riemann.utils.le2i]: [int.from_bytes(b, 'little')]. *)
Fixpoint le2i (b : bytes) : Z :=
  match b with
  | [] => 0
  | x :: rest => byte_val x + 256 * le2i rest
  end.

(** [riemann.utils.be2i]: [int.from_bytes(b, 'big')]. *)
Definition be2i (b : bytes) : Z := le2i (rev b).

(** *** [bytes.fromhex] *)

Definition is_space (c : ascii) : bool :=
  let n := N_of_ascii c in
  (N.eqb n 32 || (N.leb 9 n && N.leb n 13))%bool.

Definition hex_digit (c : ascii) : option N :=
  let n := N_of_ascii c in
  if (N.leb 48 n && N.leb n 57)%bool then Some (n - 48)%N
  else if (N.leb 97 n && N.leb n 102)%bool then Some (n - 87)%N
  else if (N.leb 65 n && N.leb n 70)%bool then Some (n - 55)%N
  else None.

Definition byte_of_nibbles (hi lo : N) : byte :=
  byte_of_ascii (ascii_of_N (16 * hi + lo)).

(** ASCII whitespace is skipped in front of every byte; a byte is two
    adjacent hexadecimal digits; anything else is a [ValueError] ([None]). *)
Fixpoint bytes_fromhex (s : string) : option bytes :=
  match s with
  | EmptyString => Some []
  | String c rest =>
      if is_space c then bytes_fromhex rest
      else
        match hex_digit c, rest with
        | Some hi, String d rest' =>
            match hex_digit d with
            | Some lo =>
                match bytes_fromhex rest' with
                | Some bs => Some (byte_of_nibbles hi lo :: bs)
                | None => None
                end
            | None => None
            end
        | _, _ => None
        end
  end.

(* ------------------------------------------------------------------ *)
(** ** Targets and difficulty *)

(** [math.floor(le2i(nbits[:-1]) * 0x100 ** exponent)].  For a negative
    exponent Python computes [0x100 ** exponent] as a float, an exact power
    of two; the product with a mantissa below [2^53] (any [nbits] of at most
    seven bytes) is exact, and so is its floor.  This is the value on those
    [nbits], among them the four-byte [nbits] every parsed header has; on
    longer ones with an exponent byte below 3 the float product rounds (and
    overflows on mantissas past the float range), which is not modelled. *)
Definition make_target (nbits : bytes) : Z :=
  let exponent := be2i (last_byte nbits) - 3 in
  let mantissa := le2i (but_last nbits) in
  if 0 <=? exponent then mantissa * 256 ^ exponent
  else mantissa / 256 ^ (- exponent).

(** The target in the words of the specification: the mantissa (low three
    bytes, little-endian) times 256 to the power (high byte - 3), as a
    rational number. *)
Definition spec_target (nbits : bytes) : Q :=
  (inject_Z (le2i (but_last nbits))
   * (256 # 1) ^ (be2i (last_byte nbits) - 3))%Q.

Definition max_target_bits : bytes := [xff; xff; x00; x1d].

Definition parse_difficulty (nbits : bytes) : Result Z :=
  let t := make_target nbits in
  if t =? 0 then Raise ZeroDivisionError
  else Return (make_target max_target_bits / t).

(* ------------------------------------------------------------------ *)
(** ** Headers *)

Record Fields : Type := mkFields {
  hash : bytes;
  version : Z;
  prev_block : bytes;
  merkle_root : bytes;
  timestamp : Z;
  nbits : bytes;
  nonce : bytes;
  difficulty : Z;
  hex : string
}.

(** A header dict; [height] and [accumulated_work] may be missing. *)
Record Header : Type := mkHeader {
  fields :> Fields;
  height_key : option Z;
  work_key : option Z
}.

(** A dict with all eleven keys: a row of the [headers] table. *)
Record Row : Type := mkRow {
  columns :> Fields;
  height : Z;
  accumulated_work : Z
}.

Definition header_from_row (r : Row) : Header :=
  mkHeader (columns r) (Some (height r)) (Some (accumulated_work r)).

Definition check_work (f : Fields) : bool :=
  be2i (hash f) <=? make_target (nbits f).

Section Codec.

Variable hash256 : bytes -> bytes.

Definition parse_header (header : string) : Result Header :=
  if negb (Nat.eqb (String.length header) 160) then Raise ValueError
  else
    match bytes_fromhex header with
    | None => Raise ValueError
    | Some as_bytes =>
        let nb := slice 72 76 as_bytes in
        d <- parse_difficulty nb ;;
        Return (mkHeader
                  (mkFields (rev (hash256 as_bytes))
                            (le2i (slice 0 4 as_bytes))
                            (rev (slice 4 36 as_bytes))
                            (slice 36 68 as_bytes)
                            (le2i (slice 68 72 as_bytes))
                            nb
                            (slice 76 80 as_bytes)
                            d
                            header)
                  None None)
    end.

End Codec.

(* ------------------------------------------------------------------ *)
(** ** The header store *)

(** The [headers] table: [hash] is its primary key. *)
Definition Table := list Row.

(** What [cursor.execute] and [connection.commit] do inside the [try]
    blocks: whether they raise, given the table they run on.  A raise
    leaves the transaction open and the table as the connection shows it;
    errors on which SQLite rolls the transaction back are not covered. *)
Record Faults : Type := mkFaults {
  execute_raises : Table -> Row -> bool;
  commit_raises : Table -> bool
}.

Definition no_faults : Faults :=
  mkFaults (fun _ _ => false) (fun _ => false).

Definition has_hash (x : bytes) (r : Row) : bool := bytes_eqb (hash r) x.

(** [INSERT OR REPLACE INTO headers]: the row holding the same primary key
    is deleted, the new row is appended. *)
Definition insert_or_replace (r : Row) (T : Table) : Table :=
  filter (fun r' => negb (has_hash (hash r) r')) T ++ [r].

(** The table after a run of upserts, in order. *)
Definition upsert_all (rows : list Row) (T : Table) : Table :=
  fold_left (fun T' r => insert_or_replace r T') rows T.

(** [SELECT * FROM headers WHERE hash = :hash], then [res[0]] or [None]. *)
Definition find_by_hash (T : Table) (x : bytes) : option Row :=
  find (has_hash x) T.

Definition find_by_height (T : Table) (n : Z) : list Row :=
  filter (fun r => height r =? n) T.

(** SQL [max] over a column: [NULL] on an empty table. *)
Definition sql_max (l : list Z) : option Z :=
  match l with
  | [] => None
  | x :: rest => Some (fold_left Z.max rest x)
  end.

(** [WHERE col = (SELECT max(col) FROM headers)]; a comparison with [NULL]
    selects nothing. *)
Definition where_max (col : Row -> Z) (T : Table) : list Row :=
  match sql_max (map col T) with
  | None => []
  | Some m => filter (fun r => col r =? m) T
  end.

Definition find_highest (T : Table) : list Row := where_max height T.

Definition find_heaviest (T : Table) : list Row :=
  where_max accumulated_work T.

(* ------------------------------------------------------------------ *)
(** ** Fork-choice engine *)

(** [Union[Header, str]] *)
Inductive HeaderArg : Type :=
| Raw (s : string)
| Dict (h : Header).

Definition set_score (f : Fields) (h w : Z) : Row := mkRow f h w.

Definition parent_height_and_work (T : Table) (f : Fields) : Z * Z :=
  match find_by_hash T (prev_block f) with
  | Some parent => (height parent, accumulated_work parent)
  | None => (0, 0)
  end.

(** The dict handed to [execute] must bind all eleven named parameters. *)
Definition bindings (h : Header) : option Row :=
  match height_key h, work_key h with
  | Some n, Some w => Some (mkRow h n w)
  | _, _ => None
  end.

(** Second loop of [batch_store_header]: the first header, in list order,
    whose parent is stored is scored from it with the difficulty [d0] of
    [headers[0]], and the list is cut to start there. *)
Fixpoint seed_from (T : Table) (d0 : Z) (headers : list Row)
  : option (list Row) :=
  match headers with
  | [] => None
  | h :: rest =>
      match find_by_hash T (prev_block h) with
      | Some parent =>
          Some (set_score h (height parent + 1)
                            (accumulated_work parent + d0) :: rest)
      | None => seed_from T d0 rest
      end
  end.

Definition seed (T : Table) (headers : list Row) : list Row :=
  match headers with
  | [] => []
  | h0 :: _ =>
      match seed_from T (difficulty h0) headers with
      | Some cut => cut
      | None => headers
      end
  end.

(** Body of the third loop, for the dict [h] of the list [headers]. *)
Definition backfill_one (headers : list Row) (h : Row) : Row :=
  if height h =? 0 then
    match filter (has_hash (prev_block h)) headers with
    | parent :: _ =>
        if 0 <? height parent then
          set_score h (height parent + 1)
                      (accumulated_work parent + difficulty h)
        else h
    | [] => h
    end
  else h.

(** The third loop mutates the dicts in place: when the header at some
    position is visited, the headers before it ([done]) already carry
    their new values. *)
Fixpoint backfill_from (done todo : list Row) : list Row :=
  match todo with
  | [] => done
  | h :: rest =>
      backfill_from (done ++ [backfill_one (done ++ h :: rest) h]) rest
  end.

Definition backfill (headers : list Row) : list Row :=
  backfill_from [] headers.

Section Engine.

Variable hash256 : bytes -> bytes.
Variable io : Faults.

Definition as_dict (a : HeaderArg) : Result Header :=
  match a with
  | Raw s => parse_header hash256 s
  | Dict h => Return h
  end.

(** Whether the dict of an argument passes [check_work]; an argument
    that does not parse is left to [tag_all]. *)
Definition meets_target (a : HeaderArg) : bool :=
  match as_dict a with
  | Return h => check_work h
  | Raise _ => true
  end.

(** First loop of [batch_store_header]. *)
Fixpoint tag_all (headers : list HeaderArg) : Result (list Row) :=
  match headers with
  | [] => Return []
  | a :: rest =>
      h <- as_dict a ;;
      hs <- tag_all rest ;;
      Return (set_score h 0 0 :: hs)
  end.

(** The [try] block of [batch_store_header]. *)
Fixpoint persist (T : Table) (headers : list Row) : bool * Table :=
  match headers with
  | [] => if commit_raises io T then (false, T) else (true, T)
  | h :: rest =>
      if execute_raises io T h then (false, T)
      else persist (insert_or_replace h T) rest
  end.

Definition batch_store_header (headers : list HeaderArg) (T : Table)
  : Result bool * Table :=
  match tag_all headers with
  | Raise e => (Raise e, T)
  | Return tagged =>
      let survivors := filter (fun h : Row => check_work h) tagged in
      let (ok, T') := persist T (backfill (seed T survivors)) in
      (Return ok, T')
  end.

Definition score (T : Table) (h : Header) : Header :=
  match height_key h with
  | Some _ => h
  | None =>
      let (parent_height, parent_work) := parent_height_and_work T h in
      mkHeader h (Some (parent_height + 1))
                 (Some (parent_work + difficulty h))
  end.

Definition store_header (header : HeaderArg) (T : Table)
  : Result bool * Table :=
  match as_dict header with
  | Raise e => (Raise e, T)
  | Return h =>
      if negb (check_work h) then (Return false, T)
      else
        match bindings (score T h) with
        | None => (Return false, T)
        | Some r =>
            if execute_raises io T r then (Return false, T)
            else
              let T' := insert_or_replace r T in
              if commit_raises io T' then (Return false, T')
              else (Return true, T')
        end
  end.

End Engine.

(* ------------------------------------------------------------------ *)
(** ** Vocabulary of the statements *)

(** A string of hexadecimal digits only. *)
Fixpoint all_hex (s : string) : bool :=
  match s with
  | EmptyString => true
  | String c rest =>
      match hex_digit c with
      | Some _ => all_hex rest
      | None => false
      end
  end.

(** The primary keys of a table, in row order. *)
Definition keys (T : Table) : list bytes := map (fun r : Row => hash r) T.

(** Each header of [cs] names its predecessor as parent, the first one
    naming [p]. *)
Fixpoint chained (p : bytes) (cs : list Row) : Prop :=
  match cs with
  | [] => True
  | c :: rest => prev_block c = p /\ chained (hash c) rest
  end.

(** The headers of [cs] scored one after the other above [p]. *)
Fixpoint scored_above (p : Row) (cs : list Row) : list Row :=
  match cs with
  | [] => []
  | c :: rest =>
      let c' := set_score c (height p + 1)
                            (accumulated_work p + difficulty c) in
      c' :: scored_above c' rest
  end.

(** An environment in which no write raises. *)
Definition quiet (io : Faults) : Prop :=
  (forall T r, execute_raises io T r = false) /\
  (forall T, commit_raises io T = false).

(* ------------------------------------------------------------------ *)
(** ** Sample data *)

(** A 32-byte hash whose big-endian value is the value of [n]. *)
Definition small_hash (n : byte) : bytes := repeat x00 31 ++ [n].

(** A 32-byte hash above every target of exponent at most [0x1d]. *)
Definition large_hash : bytes := xff :: repeat x00 31.

(** A stand-in for [hash256] where a concrete instance is wanted. *)
Definition zero_hash256 (_ : bytes) : bytes := repeat x00 32.

Definition sample (h p : bytes) (nb : bytes) : Fields :=
  mkFields h 1 p (repeat x00 32) 0 nb (repeat x00 4)
           (make_target max_target_bits / make_target nb) "".

(** [nbits] of difficulty 1 and of difficulty 256. *)
Definition easy_bits : bytes := max_target_bits.
Definition hard_bits : bytes := [xff; xff; x00; x1c].

(** Two forks of equal work above a common parent. *)
Definition root_row : Row :=
  mkRow (sample (small_hash x01) (small_hash x00) easy_bits) 5 10.
Definition fork_a : Row :=
  mkRow (sample (small_hash x02) (small_hash x01) easy_bits) 6 11.
Definition fork_b : Row :=
  mkRow (sample (small_hash x03) (small_hash x01) easy_bits) 6 11.
Definition forked_table : Table := [root_row; fork_a; fork_b].


(** A header whose hash misses its target. *)
Definition weak_header : Header :=
  mkHeader (sample large_hash (small_hash x00) easy_bits) None None.

(** A header meeting its target, child of [root_row]. *)
Definition child_header : Header :=
  mkHeader (sample (small_hash x02) (small_hash x01) easy_bits) None None.

(** A raw header of 80 bytes: all zero but for [nbits = ffff001d]. *)
Definition orphan_raw : string :=
  "000000000000000000000000000000000000000000000000000000000000000000000000000000000000000000000000000000000000000000000000000000000000000000000000ffff001d00000000".

(** 160 characters, 79 bytes: 158 hexadecimal digits and two spaces. *)
Definition short_raw : string :=
  "ffffffffffffffffffffffffffffffffffffffffffffffffffffffffffffffffffffffffffffffffffffffffffffffffffffffffffffffffffffffffffffffffffffffffffffffffffffffffffffff  ".

(** The dict [parse_header] builds from [short_raw]. *)
Definition short_header (hash256 : bytes -> bytes) : Header :=
  mkHeader
    (mkFields (rev (hash256 (repeat xff 79))) 4294967295 (repeat xff 32)
              (repeat xff 32) 4294967295 (repeat xff 4) (repeat xff 3) 0
              short_raw)
    None None.

(** The dict [parse_header] builds from [orphan_raw] under [zero_hash256]. *)
Definition orphan_header : Header :=
  mkHeader
    (mkFields (repeat x00 32) 0 (repeat x00 32) (repeat x00 32) 0
              max_target_bits (repeat x00 4) 1 orphan_raw)
    None None.

(** A header meeting its target whose parent is not stored; its
    difficulty is 256. *)
Definition stray_header : Header :=
  mkHeader (sample (small_hash x07) (small_hash x09) hard_bits) None None.

(** A batch: one header missing its target, one stray header, one child
    of [root_row]. *)
Definition mixed_batch : list HeaderArg :=
  [Dict weak_header; Dict stray_header; Dict child_header].

(** A header meeting its target, child of [child_header]. *)
Definition grandchild_header : Header :=
  mkHeader (sample (small_hash x04) (small_hash x02) hard_bits) None None.

(** [child_header] as a dict that already carries a height, with and
    without the accumulated work. *)
Definition scored_dict : Header := mkHeader child_header (Some 42) (Some 7).
Definition half_scored_dict : Header := mkHeader child_header (Some 42) None.

(** A header naming itself as parent, without a height key; it meets its
    target and has difficulty 256. *)
Definition self_parent_header : Header :=
  mkHeader (sample (small_hash x05) (small_hash x05) hard_bits) None None.

(** A store that holds [child_header] unresolved, at 0/0. *)
Definition stale_table : Table :=
  [root_row; mkRow child_header 0 0; fork_b].

(* ================================================================== *)
(** * Properties *)

(** ** Bytes and integers *)

Lemma byte_val_range (b : byte) : 0 <= byte_val b <= 255.
Proof.
  unfold byte_val. pose proof (Byte.to_N_bounded b). lia.
Qed.

Lemma le2i_range (b : bytes) :
  0 <= le2i b < 256 ^ Z.of_nat (List.length b).
Proof.
  induction b as [|x rest IH].
  - simpl. lia.
  - cbn [le2i List.length]. rewrite Nat2Z.inj_succ, Z.pow_succ_r by lia.
    pose proof (byte_val_range x). lia.
Qed.

Lemma be2i_range (b : bytes) :
  0 <= be2i b < 256 ^ Z.of_nat (List.length b).
Proof.
  unfold be2i. rewrite <- (length_rev b). apply le2i_range.
Qed.

Lemma bytes_eqb_eq (a b : bytes) : bytes_eqb a b = true <-> a = b.
Proof.
  unfold bytes_eqb. destruct (list_eq_dec _ a b); split; congruence.
Qed.

Lemma bytes_eqb_refl (a : bytes) : bytes_eqb a a = true.
Proof. now apply bytes_eqb_eq. Qed.

Lemma bytes_eqb_neq (a b : bytes) : bytes_eqb a b = false <-> a <> b.
Proof.
  unfold bytes_eqb. destruct (list_eq_dec _ a b); split; congruence.
Qed.

(** ** Targets *)

Lemma make_target_nonneg (nb : bytes) : 0 <= make_target nb.
Proof.
  unfold make_target.
  pose proof (le2i_range (but_last nb)) as [Hm _].
  destruct (0 <=? be2i (last_byte nb) - 3) eqn:E.
  - apply Z.leb_le in E. apply Z.mul_nonneg_nonneg; [assumption|].
    apply Z.pow_nonneg. lia.
  - apply Z.leb_gt in E. apply Z.div_pos; [assumption|].
    apply Z.pow_pos_nonneg; lia.
Qed.

(** The code computes the floor of the specification's rational target. *)
Lemma make_target_floor (nb : bytes) :
  make_target nb = Qfloor (spec_target nb).
Proof.
  unfold make_target, spec_target.
  set (m := le2i (but_last nb)). set (e := be2i (last_byte nb) - 3).
  destruct (0 <=? e) eqn:E.
  - apply Z.leb_le in E.
    rewrite <- (Qfloor_Z (m * 256 ^ e)).
    apply Qfloor_comp.
    rewrite inject_Z_mult, (Zpower_Qpower 256 e E). reflexivity.
  - apply Z.leb_gt in E.
    rewrite Zdiv_Qdiv. apply Qfloor_comp.
    unfold Qdiv.
    rewrite (Zpower_Qpower 256 (- e)) by lia.
    rewrite <- Qpower_opp, Z.opp_involutive. reflexivity.
Qed.

Lemma make_target_exact (nb : bytes) :
  3 <= be2i (last_byte nb) ->
  (inject_Z (make_target nb) == spec_target nb)%Q.
Proof.
  intros H. unfold make_target, spec_target.
  replace (0 <=? be2i (last_byte nb) - 3) with true
    by (symmetry; apply Z.leb_le; lia).
  rewrite inject_Z_mult, Zpower_Qpower by lia. reflexivity.
Qed.

(** C5, as stated, fails where the exponent byte is below 3: for the bits
    [01 00 00 02] the product is 1/256 and [make_target] returns 0. *)
Lemma make_target_not_product :
  make_target [x01; x00; x00; x02] = 0 /\
  (spec_target [x01; x00; x00; x02] == 1 # 256)%Q /\
  ~ (inject_Z (make_target [x01; x00; x00; x02])
     == spec_target [x01; x00; x00; x02])%Q.
Proof.
  split; [reflexivity|]. split; [reflexivity|].
  intros H. vm_compute in H. discriminate H.
Qed.

(** C5 (amended): for every 4-byte bits value, [make_target] is the floor
    of mantissa * 256^(exponent - 3), mantissa being the low three bytes
    read little-endian and exponent the high byte; it is that product
    itself whenever the exponent is at least 3. *)
Theorem make_target_compact (b0 b1 b2 b3 : byte) :
  let mantissa := byte_val b0 + 256 * byte_val b1 + 65536 * byte_val b2 in
  let exponent := byte_val b3 in
  make_target [b0; b1; b2; b3]
  = Qfloor (inject_Z mantissa * (256 # 1) ^ (exponent - 3))%Q
  /\ (3 <= exponent ->
      make_target [b0; b1; b2; b3] = mantissa * 256 ^ (exponent - 3)).
Proof.
  intros mantissa exponent.
  assert (Hm : le2i (but_last [b0; b1; b2; b3]) = mantissa).
  { unfold mantissa. cbn [but_last List.length Nat.sub firstn le2i]. lia. }
  assert (He : be2i (last_byte [b0; b1; b2; b3]) = exponent).
  { unfold exponent, be2i.
    cbn [last_byte List.length Nat.sub skipn rev app le2i]. lia. }
  split.
  - rewrite make_target_floor. unfold spec_target. now rewrite Hm, He.
  - intros H. unfold make_target. rewrite Hm, He.
    replace (0 <=? exponent - 3) with true
      by (symmetry; apply Z.leb_le; lia).
    reflexivity.
Qed.

Lemma make_target_compact_witness :
  3 <= byte_val x1d /\
  make_target [xff; xff; x00; x1d]
  = (byte_val xff + 256 * byte_val xff + 65536 * byte_val x00)
    * 256 ^ (byte_val x1d - 3).
Proof.
  split; [vm_compute; discriminate|].
  apply (make_target_compact xff xff x00 x1d). vm_compute; discriminate.
Defined.

(** ** Difficulty *)

Lemma max_target_value : make_target max_target_bits = 65535 * 256 ^ 26.
Proof. reflexivity. Qed.

(** The quotient [parse_difficulty] returns is the Euclidean one. *)
Lemma parse_difficulty_euclid (nb : bytes) (d : Z) :
  parse_difficulty nb = Return d ->
  d * make_target nb <= make_target max_target_bits
  < (d + 1) * make_target nb.
Proof.
  unfold parse_difficulty.
  destruct (make_target nb =? 0) eqn:E; [discriminate|].
  apply Z.eqb_neq in E. intros [= <-].
  pose proof (make_target_nonneg nb).
  set (t := make_target nb) in *. set (r := make_target max_target_bits).
  pose proof (Z.div_mod r t E). pose proof (Z.mod_pos_bound r t). nia.
Qed.

Lemma parse_difficulty_zero_target (nb : bytes) :
  make_target nb = 0 -> parse_difficulty nb = Raise ZeroDivisionError.
Proof. intros H. unfold parse_difficulty. now rewrite H. Qed.

(** C6: [parse_difficulty] of the reference maximum-target bits [ffff001d]
    is exactly 1, and in general [parse_difficulty] is the integer quotient
    of the reference maximum target by [make_target] of the bits. *)
Theorem parse_difficulty_quotient :
  parse_difficulty [xff; xff; x00; x1d] = Return 1 /\
  forall nb : bytes,
    make_target nb <> 0 ->
    parse_difficulty nb
    = Return (make_target [xff; xff; x00; x1d] / make_target nb).
Proof.
  split; [reflexivity|].
  intros nb H. unfold parse_difficulty.
  apply Z.eqb_neq in H. now rewrite H.
Qed.

Lemma parse_difficulty_quotient_witness :
  make_target hard_bits <> 0 /\ parse_difficulty hard_bits = Return 256.
Proof.
  split; [vm_compute; discriminate|].
  exact (proj2 parse_difficulty_quotient hard_bits
           ltac:(vm_compute; discriminate)).
Defined.

(** ** The header store *)

Lemma has_hash_true (x : bytes) (r : Row) : has_hash x r = true <-> hash r = x.
Proof. apply bytes_eqb_eq. Qed.

Lemma has_hash_false (x : bytes) (r : Row) :
  has_hash x r = false <-> hash r <> x.
Proof. apply bytes_eqb_neq. Qed.

Lemma find_by_hash_app (T1 T2 : Table) (x : bytes) :
  find_by_hash (T1 ++ T2) x
  = match find_by_hash T1 x with
    | Some r => Some r
    | None => find_by_hash T2 x
    end.
Proof.
  unfold find_by_hash. induction T1 as [|r T1 IH]; simpl; [reflexivity|].
  destruct (has_hash x r); [reflexivity|exact IH].
Qed.

Lemma find_by_hash_some (T : Table) (x : bytes) (r : Row) :
  find_by_hash T x = Some r -> In r T /\ hash r = x.
Proof.
  unfold find_by_hash. intros H. apply find_some in H.
  destruct H as [Hin Hh]. now apply has_hash_true in Hh.
Qed.

Lemma find_by_hash_none (T : Table) (x : bytes) :
  find_by_hash T x = None <-> forall r, In r T -> hash r <> x.
Proof.
  unfold find_by_hash. split.
  - intros H r Hin. apply has_hash_false. exact (find_none _ _ H r Hin).
  - intros H. induction T as [|r T IH]; simpl; [reflexivity|].
    destruct (has_hash x r) eqn:E.
    + apply has_hash_true in E. now destruct (H r (or_introl eq_refl)).
    + apply IH. intros r' Hin. apply H. now right.
Qed.

Lemma find_by_hash_removed (T : Table) (x : bytes) :
  find_by_hash (filter (fun r' => negb (has_hash x r')) T) x = None.
Proof.
  apply find_by_hash_none. intros r Hin.
  apply filter_In in Hin. destruct Hin as [_ Hn].
  apply has_hash_false. now destruct (has_hash x r).
Qed.

Lemma find_by_hash_kept (T : Table) (x y : bytes) :
  x <> y ->
  find_by_hash (filter (fun r' => negb (has_hash x r')) T) y
  = find_by_hash T y.
Proof.
  intros Hxy. unfold find_by_hash.
  induction T as [|r T IH]; simpl; [reflexivity|].
  destruct (has_hash x r) eqn:Ex; simpl.
  - rewrite IH. destruct (has_hash y r) eqn:Ey; [|reflexivity].
    apply has_hash_true in Ex, Ey. congruence.
  - destruct (has_hash y r); [reflexivity|exact IH].
Qed.

(** After an upsert, the key reads back the row just written. *)
Lemma find_by_hash_upsert (r : Row) (T : Table) :
  find_by_hash (insert_or_replace r T) (hash r) = Some r.
Proof.
  unfold insert_or_replace.
  rewrite find_by_hash_app, find_by_hash_removed.
  unfold find_by_hash. simpl.
  replace (has_hash (hash r) r) with true; [reflexivity|].
  symmetry. now apply has_hash_true.
Qed.

(** An upsert leaves every other key alone. *)
Lemma find_by_hash_upsert_other (r : Row) (T : Table) (x : bytes) :
  x <> hash r ->
  find_by_hash (insert_or_replace r T) x = find_by_hash T x.
Proof.
  intros Hx. unfold insert_or_replace.
  rewrite find_by_hash_app, find_by_hash_kept by congruence.
  destruct (find_by_hash T x); [reflexivity|].
  unfold find_by_hash. simpl.
  replace (has_hash x r) with false; [reflexivity|].
  symmetry. apply has_hash_false. congruence.
Qed.

Lemma In_upsert (r r' : Row) (T : Table) :
  In r' (insert_or_replace r T)
  <-> (In r' T /\ hash r' <> hash r) \/ r' = r.
Proof.
  unfold insert_or_replace. rewrite in_app_iff, filter_In. simpl.
  rewrite negb_true_iff, has_hash_false. intuition.
Qed.

(** The primary key stays unique. *)
Lemma upsert_unique_key (r : Row) (T : Table) :
  List.length (filter (has_hash (hash r)) (insert_or_replace r T)) = 1%nat.
Proof.
  assert (Hr : has_hash (hash r) r = true) by now apply has_hash_true.
  unfold insert_or_replace. rewrite filter_app, length_app. simpl.
  rewrite Hr. simpl.
  replace (filter _ (filter _ T)) with (@nil Row); [reflexivity|].
  symmetry. induction T as [|r' T IH]; simpl; [reflexivity|].
  destruct (has_hash (hash r) r') eqn:E; simpl; [exact IH|].
  now rewrite E.
Qed.

Lemma upsert_NoDup (r : Row) (T : Table) :
  NoDup (map (fun r' : Row => hash r') T) ->
  NoDup (map (fun r' : Row => hash r') (insert_or_replace r T)).
Proof.
  intros H. unfold insert_or_replace. rewrite map_app. simpl.
  assert (Hf : NoDup (map (fun r' : Row => hash r')
                        (filter (fun r' => negb (has_hash (hash r) r')) T))).
  { induction T as [|r' T IH]; simpl; [constructor|].
    inversion H as [|? ? Hnin Hnd]; subst.
    destruct (has_hash (hash r) r'); simpl; [now apply IH|].
    constructor; [|now apply IH].
    intros Hin. apply Hnin. apply in_map_iff in Hin.
    destruct Hin as [q [Hq Hin]]. apply filter_In in Hin.
    apply in_map_iff. exists q. tauto. }
  apply NoDup_app; [exact Hf|repeat constructor; auto|].
  intros x Hin [Hx|[]]. subst x.
  apply in_map_iff in Hin. destruct Hin as [q [Hq Hin]].
  apply filter_In in Hin. destruct Hin as [_ Hn].
  apply negb_true_iff, has_hash_false in Hn. congruence.
Qed.

(** Writing the same row twice is writing it once. *)
Lemma upsert_twice (r : Row) (T : Table) :
  insert_or_replace r (insert_or_replace r T) = insert_or_replace r T.
Proof.
  assert (Hr : has_hash (hash r) r = true) by now apply has_hash_true.
  unfold insert_or_replace at 1. f_equal.
  unfold insert_or_replace. rewrite filter_app. simpl.
  rewrite Hr. simpl. rewrite app_nil_r.
  induction T as [|r' T IH]; simpl; [reflexivity|].
  destruct (has_hash (hash r) r') eqn:E; simpl; [exact IH|].
  rewrite E. simpl. now rewrite IH.
Qed.

(** ** Aggregate queries *)

Lemma fold_max_spec (l : list Z) (x : Z) :
  let m := fold_left Z.max l x in
  (m = x \/ In m l) /\ x <= m /\ forall y, In y l -> y <= m.
Proof.
  revert x. induction l as [|a l IH]; intros x; simpl.
  - repeat split; [now left|lia|intros y []].
  - destruct (IH (Z.max x a)) as [Hin [Hle Hall]].
    repeat split.
    + destruct Hin as [Heq|Hin]; [|now right; right].
      rewrite Heq. destruct (Z.max_spec x a) as [[_ ->]|[_ ->]]; auto.
    + lia.
    + intros y [<-|Hy]; [lia|now apply Hall].
Qed.

Lemma sql_max_spec (l : list Z) (m : Z) :
  sql_max l = Some m -> In m l /\ forall y, In y l -> y <= m.
Proof.
  destruct l as [|x l]; simpl; [discriminate|].
  intros [= <-]. destruct (fold_max_spec l x) as [Hin [Hle Hall]].
  split.
  - destruct Hin as [->|Hin]; auto.
  - intros y [<-|Hy]; auto.
Qed.

Lemma where_max_spec (col : Row -> Z) (T : Table) (r : Row) :
  In r (where_max col T)
  <-> In r T /\ forall r', In r' T -> col r' <= col r.
Proof.
  unfold where_max. destruct (sql_max (map col T)) as [m|] eqn:E.
  - apply sql_max_spec in E. destruct E as [Hin Hall].
    rewrite filter_In, Z.eqb_eq. split.
    + intros [Hr ->]. split; [assumption|].
      intros r' Hr'. apply Hall. now apply in_map.
    + intros [Hr Hmax]. split; [assumption|].
      apply in_map_iff in Hin. destruct Hin as [q [<- Hq]].
      apply Z.le_antisymm; [|now apply Hmax].
      apply Hall. now apply in_map.
  - destruct T; [|discriminate]. simpl. tauto.
Qed.

Lemma where_max_nonempty (col : Row -> Z) (T : Table) :
  T <> [] -> where_max col T <> [].
Proof.
  intros HT. unfold where_max.
  destruct (sql_max (map col T)) as [m|] eqn:E.
  - apply sql_max_spec in E. destruct E as [Hin _].
    apply in_map_iff in Hin. destruct Hin as [q [Hq Hin]].
    intros Hnil.
    assert (Hq' : In q (filter (fun r => col r =? m) T)).
    { apply filter_In. split; [assumption|]. now apply Z.eqb_eq. }
    rewrite Hnil in Hq'. destruct Hq'.
  - destruct T; [congruence|discriminate].
Qed.

(** C10: on an empty store [find_heaviest] and [find_highest] return the
    empty list; [find_heaviest] returns exactly the stored headers whose
    [accumulated_work] is the maximum over the store, all of them when
    several tie, and at least one when the store is not empty. *)
Theorem find_heaviest_max :
  find_heaviest [] = [] /\ find_highest [] = [] /\
  (forall (T : Table) (r : Row),
      In r (find_heaviest T)
      <-> In r T /\
          forall r', In r' T -> accumulated_work r' <= accumulated_work r) /\
  (forall T : Table, T <> [] -> find_heaviest T <> []).
Proof.
  split; [reflexivity|]. split; [reflexivity|]. split.
  - intros T r. apply where_max_spec.
  - intros T. apply where_max_nonempty.
Qed.

Lemma find_heaviest_max_witness :
  In fork_a (find_heaviest forked_table) /\
  In fork_b (find_heaviest forked_table) /\
  ~ In root_row (find_heaviest forked_table) /\
  find_heaviest forked_table <> [].
Proof.
  destruct find_heaviest_max as [_ [_ [Hset Hne]]].
  assert (Hmax : forall r', In r' forked_table -> accumulated_work r' <= 11).
  { intros r' [<-|[<-|[<-|[]]]]; simpl; lia. }
  split; [|split; [|split]].
  - apply Hset. split; [simpl; tauto|exact Hmax].
  - apply Hset. split; [simpl; tauto|exact Hmax].
  - intros H. apply Hset in H. destruct H as [_ H].
    specialize (H fork_a (or_intror (or_introl eq_refl))).
    simpl in H. lia.
  - apply Hne. discriminate.
Defined.

(** ** Single-header accept *)

Section StoreHeader.

Variable hash256 : bytes -> bytes.
Variable io : Faults.

Lemma check_work_iff (f : Fields) :
  check_work f = true <-> be2i (hash f) <= make_target (nbits f).
Proof. unfold check_work. apply Z.leb_le. Qed.

(** A header failing the check is refused and the store is untouched. *)
Lemma store_header_rejects (a : HeaderArg) (T : Table) (h : Header) :
  as_dict hash256 a = Return h ->
  check_work h = false ->
  store_header hash256 io a T = (Return false, T).
Proof.
  intros Ha Hw. unfold store_header. now rewrite Ha, Hw.
Qed.

(** What an accepted header does to the store. *)
Lemma store_header_accepts (a : HeaderArg) (T : Table) (h : Header) (r : Row) :
  as_dict hash256 a = Return h ->
  check_work h = true ->
  bindings (score T h) = Some r ->
  store_header hash256 io a T
  = if execute_raises io T r then (Return false, T)
    else if commit_raises io (insert_or_replace r T)
         then (Return false, insert_or_replace r T)
         else (Return true, insert_or_replace r T).
Proof.
  intros Ha Hw Hb. unfold store_header. now rewrite Ha, Hw, Hb.
Qed.

Lemma store_header_raises (a : HeaderArg) (T : Table) (e : Exn) :
  as_dict hash256 a = Raise e ->
  store_header hash256 io a T = (Raise e, T).
Proof. intros Ha. unfold store_header. now rewrite Ha. Qed.

(** Success means an upsert of the scored header. *)
Lemma store_header_true (a : HeaderArg) (T T1 : Table) :
  store_header hash256 io a T = (Return true, T1) ->
  exists h r,
    as_dict hash256 a = Return h /\ check_work h = true /\
    bindings (score T h) = Some r /\
    execute_raises io T r = false /\
    T1 = insert_or_replace r T.
Proof.
  unfold store_header.
  destruct (as_dict hash256 a) as [h|e]; [|discriminate].
  destruct (check_work h) eqn:Hw; simpl; [|discriminate].
  destruct (bindings (score T h)) as [r|] eqn:Hb; [|discriminate].
  destruct (execute_raises io T r) eqn:He; [discriminate|].
  destruct (commit_raises io (insert_or_replace r T)); [discriminate|].
  intros [= <-]. exists h, r. auto.
Qed.

Lemma bindings_columns (h : Header) (r : Row) :
  bindings h = Some r ->
  columns r = fields h /\ height_key h = Some (height r) /\
  work_key h = Some (accumulated_work r).
Proof.
  unfold bindings.
  destruct (height_key h) as [n|], (work_key h) as [w|]; try discriminate.
  intros [= <-]. auto.
Qed.

Lemma score_fields (T : Table) (h : Header) : fields (score T h) = fields h.
Proof.
  unfold score. destruct (height_key h); [reflexivity|].
  now destruct (parent_height_and_work T h).
Qed.

(** A header without [height] and without a stored parent is scored
    from the pair [(0, 0)]. *)
Lemma score_orphan (T : Table) (h : Header) :
  height_key h = None ->
  find_by_hash T (prev_block h) = None ->
  bindings (score T h) = Some (mkRow h 1 (difficulty h)).
Proof.
  intros Hk Hp. unfold score, parent_height_and_work.
  now rewrite Hk, Hp.
Qed.

Lemma score_child (T : Table) (h : Header) (parent : Row) :
  height_key h = None ->
  find_by_hash T (prev_block h) = Some parent ->
  bindings (score T h)
  = Some (mkRow h (height parent + 1)
                  (accumulated_work parent + difficulty h)).
Proof.
  intros Hk Hp. unfold score, parent_height_and_work.
  now rewrite Hk, Hp.
Qed.

(** Scoring reads the store only at the parent's key. *)
Lemma score_upsert (T : Table) (h : Header) (r : Row) :
  (height_key h = None -> prev_block h <> hash r) ->
  score (insert_or_replace r T) h = score T h.
Proof.
  intros H. unfold score. destruct (height_key h); [reflexivity|].
  unfold parent_height_and_work.
  now rewrite find_by_hash_upsert_other by auto.
Qed.

Lemma score_scored (T T' : Table) (h : Header) :
  score T' (score T h) = score T h.
Proof.
  unfold score. destruct (height_key h) eqn:E.
  - now rewrite E.
  - now destruct (parent_height_and_work T h).
Qed.

End StoreHeader.

(** ** The codec's length check *)

Lemma parse_header_length (hash256 : bytes -> bytes) (raw : string) :
  String.length raw <> 160%nat ->
  parse_header hash256 raw = Raise ValueError.
Proof.
  intros H. unfold parse_header.
  apply Nat.eqb_neq in H. now rewrite H.
Qed.

Lemma parse_header_keys (hash256 : bytes -> bytes) (raw : string) (h : Header) :
  parse_header hash256 raw = Return h ->
  String.length raw = 160%nat /\ hex h = raw /\
  height_key h = None /\ work_key h = None /\
  parse_difficulty (nbits h) = Return (difficulty h).
Proof.
  unfold parse_header.
  destruct (Nat.eqb (String.length raw) 160) eqn:El; simpl; [|discriminate].
  apply Nat.eqb_eq in El.
  destruct (bytes_fromhex raw) as [b|]; [|discriminate].
  destruct (parse_difficulty (slice 72 76 b)) as [d|e] eqn:Ed; simpl;
    [|discriminate].
  intros [= <-]. simpl. auto.
Qed.

(** A raw header of the wrong length never reaches the store. *)
Lemma store_header_length (hash256 : bytes -> bytes) (io : Faults)
      (raw : string) (T : Table) :
  String.length raw <> 160%nat ->
  store_header hash256 io (Raw raw) T = (Raise ValueError, T).
Proof.
  intros H. apply store_header_raises. simpl.
  now apply parse_header_length.
Qed.

Lemma short_raw_parses (hash256 : bytes -> bytes) :
  parse_header hash256 short_raw = Return (short_header hash256).
Proof. reflexivity. Qed.

Lemma hash256_meets_huge_target (hash256 : bytes -> bytes) (b : bytes) :
  List.length (hash256 b) = 32%nat ->
  be2i (rev (hash256 b)) <= make_target (repeat xff 4).
Proof.
  intros H. pose proof (be2i_range (rev (hash256 b))) as [_ Hlt].
  rewrite length_rev, H in Hlt.
  assert (256 ^ Z.of_nat 32 <= make_target (repeat xff 4))
    by (vm_compute; discriminate).
  lia.
Qed.

(** C7 at the input [short_raw]: 160 characters that decode to 79 bytes are
    parsed into a header (its nonce three bytes long), and [store_header]
    persists it. *)
Theorem parse_header_accepts_79_bytes (hash256 : bytes -> bytes) :
  (forall b, List.length (hash256 b) = 32%nat) ->
  bytes_fromhex short_raw = Some (repeat xff 79) /\
  parse_header hash256 short_raw = Return (short_header hash256) /\
  store_header hash256 no_faults (Raw short_raw) []
  = (Return true, [mkRow (short_header hash256) 1 0]).
Proof.
  intros Hlen. split; [reflexivity|]. split; [reflexivity|].
  rewrite (store_header_accepts hash256 no_faults (Raw short_raw) []
             (short_header hash256) (mkRow (short_header hash256) 1 0)).
  - reflexivity.
  - apply short_raw_parses.
  - apply check_work_iff. simpl. apply hash256_meets_huge_target, Hlen.
  - reflexivity.
Qed.

Lemma parse_header_accepts_79_bytes_witness :
  (forall b, List.length (zero_hash256 b) = 32%nat) /\
  store_header zero_hash256 no_faults (Raw short_raw) []
  = (Return true, [mkRow (short_header zero_hash256) 1 0]).
Proof.
  assert (H : forall b, List.length (zero_hash256 b) = 32%nat)
    by (intros b; reflexivity).
  split; [exact H|].
  exact (proj2 (proj2 (parse_header_accepts_79_bytes zero_hash256 H))).
Defined.

(** ** Proof-of-work gate *)

(** C4: [check_work] is true exactly when the hash, read as a big-endian
    integer, is at most the target of the header's bits; and a header for
    which it is false makes [store_header] return failure and leaves the
    store as it was. *)
Theorem check_work_gate (hash256 : bytes -> bytes) (io : Faults) :
  (forall f : Fields,
      check_work f = true <-> be2i (hash f) <= make_target (nbits f)) /\
  (forall (a : HeaderArg) (T : Table) (h : Header),
      as_dict hash256 a = Return h ->
      check_work h = false ->
      store_header hash256 io a T = (Return false, T)).
Proof.
  split.
  - apply check_work_iff.
  - intros a T h. apply store_header_rejects.
Qed.

Lemma check_work_gate_witness :
  (be2i (hash child_header) <= make_target (nbits child_header) ->
   check_work child_header = true) /\
  as_dict zero_hash256 (Dict weak_header) = Return weak_header /\
  check_work weak_header = false /\
  store_header zero_hash256 no_faults (Dict weak_header) forked_table
  = (Return false, forked_table).
Proof.
  destruct (check_work_gate zero_hash256 no_faults) as [Hiff Hgate].
  split; [apply Hiff|].
  split; [reflexivity|]. split; [reflexivity|].
  apply (Hgate (Dict weak_header) forked_table weak_header); reflexivity.
Defined.

(** ** Unresolved parents in single-header accept *)

(** C3 on the code: a raw header that parses, meets its target and has no
    stored parent is persisted by [store_header] with height 1 and
    accumulated work equal to its own difficulty (not with 0 and 0). *)
Theorem store_header_orphan (hash256 : bytes -> bytes) (io : Faults)
        (raw : string) (T : Table) (h : Header) :
  parse_header hash256 raw = Return h ->
  check_work h = true ->
  find_by_hash T (prev_block h) = None ->
  execute_raises io T (mkRow h 1 (difficulty h)) = false ->
  commit_raises io (insert_or_replace (mkRow h 1 (difficulty h)) T) = false ->
  store_header hash256 io (Raw raw) T
  = (Return true, insert_or_replace (mkRow h 1 (difficulty h)) T)
  /\ find_by_hash (insert_or_replace (mkRow h 1 (difficulty h)) T) (hash h)
     = Some (mkRow h 1 (difficulty h)).
Proof.
  intros Hp Hw Hn He Hc.
  destruct (parse_header_keys hash256 raw h Hp) as [_ [_ [Hk _]]].
  split.
  - rewrite (store_header_accepts hash256 io (Raw raw) T h
               (mkRow h 1 (difficulty h)) Hp Hw (score_orphan T h Hk Hn)).
    now rewrite He, Hc.
  - apply (find_by_hash_upsert (mkRow h 1 (difficulty h)) T).
Qed.

Lemma store_header_orphan_witness :
  parse_header zero_hash256 orphan_raw = Return orphan_header /\
  store_header zero_hash256 no_faults (Raw orphan_raw) []
  = (Return true, [mkRow orphan_header 1 1]) /\
  find_by_hash [mkRow orphan_header 1 1] (hash orphan_header)
  = Some (mkRow orphan_header 1 1).
Proof.
  split; [reflexivity|].
  apply (store_header_orphan zero_hash256 no_faults orphan_raw []
           orphan_header); reflexivity.
Defined.

(** ** Upsert by hash *)

Lemma store_header_again (hash256 : bytes -> bytes) (io : Faults)
      (a : HeaderArg) (T : Table) (h : Header) (r : Row) :
  as_dict hash256 a = Return h ->
  check_work h = true ->
  bindings (score (insert_or_replace r T) h) = Some r ->
  snd (store_header hash256 io a (insert_or_replace r T))
  = insert_or_replace r T.
Proof.
  intros Ha Hw Hb.
  rewrite (store_header_accepts hash256 io a _ h r Ha Hw Hb).
  rewrite upsert_twice.
  destruct (execute_raises io _ r); [reflexivity|].
  now destruct (commit_raises io _).
Qed.

(** C9, as stated, fails for a header that names itself as parent:
    [self_parent_header], stored on an empty store, is written with height
    1 and work 256; stored again, it finds itself as parent and is written
    with height 2 and work 512. *)
Lemma store_header_twice_self_parent :
  store_header zero_hash256 no_faults (Dict self_parent_header) []
  = (Return true, [mkRow self_parent_header 1 256]) /\
  store_header zero_hash256 no_faults (Dict self_parent_header)
    [mkRow self_parent_header 1 256]
  = (Return true, [mkRow self_parent_header 2 512]) /\
  snd (store_header zero_hash256 no_faults (Dict self_parent_header)
         (snd (store_header zero_hash256 no_faults
                 (Dict self_parent_header) [])))
  <> snd (store_header zero_hash256 no_faults (Dict self_parent_header) []).
Proof.
  split; [vm_compute; reflexivity|]. split; [vm_compute; reflexivity|].
  vm_compute. intros H. discriminate H.
Qed.

(** C9 (amended): a successful [store_header] leaves exactly one row under
    the header's hash, that row being the one just written, and keeps the
    primary key free of duplicates.  Storing the header again leaves the
    store as the first call left it when the second call is given the dict
    the first call scored, and when it is given the same argument and the
    header either carries a height or does not name itself as parent. *)
Theorem store_header_idempotent (hash256 : bytes -> bytes) (io : Faults)
        (a : HeaderArg) (T T1 : Table) :
  store_header hash256 io a T = (Return true, T1) ->
  exists (h : Header) (r : Row),
    as_dict hash256 a = Return h /\
    bindings (score T h) = Some r /\
    find_by_hash T1 (hash h) = Some r /\
    List.length (filter (has_hash (hash h)) T1) = 1%nat /\
    (NoDup (map (fun r' : Row => hash r') T) ->
     NoDup (map (fun r' : Row => hash r') T1)) /\
    snd (store_header hash256 io (Dict (score T h)) T1) = T1 /\
    ((height_key h = None -> prev_block h <> hash h) ->
     snd (store_header hash256 io a T1) = T1).
Proof.
  intros H. apply store_header_true in H.
  destruct H as [h [r [Ha [Hw [Hb [_ ->]]]]]].
  destruct (bindings_columns _ _ Hb) as [Hcol _].
  rewrite score_fields in Hcol.
  assert (Hh : hash r = hash h) by now rewrite Hcol.
  exists h, r. split; [assumption|]. split; [assumption|].
  rewrite <- Hh.
  split; [apply find_by_hash_upsert|].
  split; [apply upsert_unique_key|].
  split; [apply upsert_NoDup|].
  split.
  - apply store_header_again with (h := score T h).
    + reflexivity.
    + now rewrite score_fields.
    + now rewrite score_scored.
  - intros Hself. apply store_header_again with (h := h); try assumption.
    rewrite score_upsert; [assumption|].
    intros Hk. exact (Hself Hk).
Qed.

Lemma small_hash_inj (a b : byte) : small_hash a = small_hash b -> a = b.
Proof.
  unfold small_hash. intros H. apply app_inj_tail in H. tauto.
Qed.

Lemma forked_table_keys :
  NoDup (map (fun r' : Row => hash r') forked_table).
Proof.
  change (NoDup [small_hash x01; small_hash x02; small_hash x03]).
  repeat constructor; simpl;
    intros H; repeat destruct H as [H|H];
    try apply small_hash_inj in H; try discriminate H; assumption.
Qed.

Lemma store_header_idempotent_witness :
  store_header zero_hash256 no_faults (Dict child_header) stale_table
  = (Return true, [root_row; fork_b; mkRow child_header 6 11]) /\
  find_by_hash [root_row; fork_b; mkRow child_header 6 11]
    (hash child_header)
  = Some (mkRow child_header 6 11) /\
  List.length (filter (has_hash (hash child_header))
                 [root_row; fork_b; mkRow child_header 6 11]) = 1%nat /\
  NoDup (map (fun r' : Row => hash r')
           [root_row; fork_b; mkRow child_header 6 11]) /\
  snd (store_header zero_hash256 no_faults (Dict child_header)
         [root_row; fork_b; mkRow child_header 6 11])
  = [root_row; fork_b; mkRow child_header 6 11].
Proof.
  assert (H : store_header zero_hash256 no_faults (Dict child_header)
                stale_table
              = (Return true, [root_row; fork_b; mkRow child_header 6 11]))
    by (vm_compute; reflexivity).
  split; [exact H|].
  pose proof (store_header_idempotent zero_hash256 no_faults
                (Dict child_header) stale_table _ H) as X.
  destruct X as [h [r [Ha [Hb [Hf [Hone [Hnd [_ Hagain]]]]]]]].
  simpl in Ha. injection Ha as Ha. subst h.
  assert (Hr : r = mkRow child_header 6 11).
  { assert (E : bindings (score stale_table child_header)
                = Some (mkRow child_header 6 11))
      by (vm_compute; reflexivity).
    rewrite E in Hb. now injection Hb. }
  subst r.
  split; [exact Hf|]. split; [exact Hone|]. split.
  - apply Hnd.
    change (NoDup [small_hash x01; small_hash x02; small_hash x03]).
    apply forked_table_keys.
  - apply Hagain. intros _.
    change (small_hash x01 <> small_hash x02).
    intros E. apply small_hash_inj in E. discriminate E.
Defined.

(** ** Batch accept: tagging and the proof-of-work filter *)

Section Batch.

Variable hash256 : bytes -> bytes.
Variable io : Faults.

Lemma filter_twice {A : Type} (f : A -> bool) (l : list A) :
  filter f (filter f l) = filter f l.
Proof.
  induction l as [|x l IH]; simpl; [reflexivity|].
  destruct (f x) eqn:E; simpl; [rewrite E, IH|]; auto.
Qed.

Lemma tag_all_cons (a : HeaderArg) (rest : list HeaderArg)
      (tagged : list Row) :
  tag_all hash256 (a :: rest) = Return tagged ->
  exists h tl,
    as_dict hash256 a = Return h /\ tag_all hash256 rest = Return tl /\
    tagged = set_score h 0 0 :: tl.
Proof.
  simpl. destruct (as_dict hash256 a) as [h|e]; simpl; [|discriminate].
  destruct (tag_all hash256 rest) as [tl|e]; simpl; [|discriminate].
  intros [= <-]. eauto.
Qed.

(** Removing the arguments that miss their target before the call
    removes exactly the tagged headers the filter would remove. *)
Lemma tag_all_filter (hs : list HeaderArg) (tagged : list Row) :
  tag_all hash256 hs = Return tagged ->
  tag_all hash256 (filter (meets_target hash256) hs)
  = Return (filter (fun h : Row => check_work h) tagged).
Proof.
  revert tagged. induction hs as [|a rest IH]; intros tagged H.
  - simpl in H. injection H as <-. reflexivity.
  - apply tag_all_cons in H. destruct H as [h [tl [Ha [Ht ->]]]].
    specialize (IH tl Ht). simpl. unfold meets_target at 1. rewrite Ha.
    change (check_work (set_score h 0 0)) with (check_work h).
    destruct (check_work h); [|exact IH].
    simpl. now rewrite Ha, IH.
Qed.

Lemma batch_unfold (hs : list HeaderArg) (T : Table) (tagged : list Row) :
  tag_all hash256 hs = Return tagged ->
  batch_store_header hash256 io hs T
  = (Return (fst (persist io T (backfill (seed T
               (filter (fun h : Row => check_work h) tagged))))),
     snd (persist io T (backfill (seed T
               (filter (fun h : Row => check_work h) tagged))))).
Proof.
  intros H. unfold batch_store_header. rewrite H.
  now destruct (persist io T _).
Qed.

(** Headers that miss their target do not change what the batch does. *)
Lemma batch_drops_invalid (hs : list HeaderArg) (T : Table)
      (tagged : list Row) :
  tag_all hash256 hs = Return tagged ->
  batch_store_header hash256 io hs T
  = batch_store_header hash256 io (filter (meets_target hash256) hs) T.
Proof.
  intros H.
  rewrite (batch_unfold hs T tagged H).
  rewrite (batch_unfold _ T _ (tag_all_filter hs tagged H)).
  now rewrite filter_twice.
Qed.

Lemma batch_raises (hs : list HeaderArg) (T : Table) (e : Exn) :
  tag_all hash256 hs = Raise e ->
  batch_store_header hash256 io hs T = (Raise e, T).
Proof. intros H. unfold batch_store_header. now rewrite H. Qed.

(** *** The [try] block *)

Lemma persist_quiet (T : Table) (rows : list Row) :
  (forall T' r, execute_raises io T' r = false) ->
  (forall T', commit_raises io T' = false) ->
  persist io T rows = (true, upsert_all rows T).
Proof.
  intros He Hc. revert T.
  induction rows as [|r rows IH]; intros T; simpl.
  - now rewrite Hc.
  - rewrite He. apply IH.
Qed.


Lemma persist_commit_raises (T : Table) (rows : list Row) :
  (forall T' q, In q rows -> execute_raises io T' q = false) ->
  commit_raises io (upsert_all rows T) = true ->
  persist io T rows = (false, upsert_all rows T).
Proof.
  revert T. induction rows as [|q rows IH]; intros T Hq Hc; simpl in *.
  - now rewrite Hc.
  - rewrite (Hq T q) by auto. apply IH; auto.
Qed.

End Batch.

(** ** Batch accept: seeding, backfill and the writes *)

Lemma seed_from_none (T : Table) (d0 : Z) (hs : list Row) :
  (forall h, In h hs -> find_by_hash T (prev_block h) = None) ->
  seed_from T d0 hs = None.
Proof.
  induction hs as [|h hs IH]; intros H; simpl; [reflexivity|].
  rewrite (H h) by now left. apply IH. intros q Hq. apply H. now right.
Qed.

Lemma seed_from_cut (T : Table) (d0 : Z) (pre post : list Row)
      (s parent : Row) :
  (forall h, In h pre -> find_by_hash T (prev_block h) = None) ->
  find_by_hash T (prev_block s) = Some parent ->
  seed_from T d0 (pre ++ s :: post)
  = Some (set_score s (height parent + 1) (accumulated_work parent + d0)
            :: post).
Proof.
  intros Hpre Hs. induction pre as [|h pre IH]; simpl.
  - now rewrite Hs.
  - rewrite (Hpre h) by now left. apply IH.
    intros q Hq. apply Hpre. now right.
Qed.

(** With no stored parent anywhere, the list is left as tagged. *)
Lemma seed_none (T : Table) (hs : list Row) :
  (forall h, In h hs -> find_by_hash T (prev_block h) = None) ->
  seed T hs = hs.
Proof.
  intros H. destruct hs as [|h0 hs]; [reflexivity|].
  unfold seed. now rewrite seed_from_none.
Qed.

(** The first header with a stored parent is scored with the difficulty of
    the head of the list, and the headers in front of it are cut off. *)
Lemma seed_cut (T : Table) (pre post : list Row) (s parent : Row) :
  (forall h, In h pre -> find_by_hash T (prev_block h) = None) ->
  find_by_hash T (prev_block s) = Some parent ->
  seed T (pre ++ s :: post)
  = set_score s (height parent + 1)
      (accumulated_work parent + difficulty (hd s pre))
      :: post.
Proof.
  intros Hpre Hs. unfold seed.
  destruct pre as [|h0 pre]; simpl app; cbv iota.
  - now rewrite (seed_from_cut T _ [] post s parent).
  - now rewrite (seed_from_cut T _ (h0 :: pre) post s parent).
Qed.

Lemma backfill_one_columns (hs : list Row) (h : Row) :
  columns (backfill_one hs h) = columns h.
Proof.
  unfold backfill_one. destruct (height h =? 0); [|reflexivity].
  destruct (filter _ hs) as [|p ?]; [reflexivity|].
  now destruct (0 <? height p).
Qed.

Lemma backfill_from_columns (done todo : list Row) :
  map columns (backfill_from done todo) = map columns (done ++ todo).
Proof.
  revert done. induction todo as [|h rest IH]; intros done; simpl.
  - now rewrite app_nil_r.
  - rewrite IH, !map_app. simpl. rewrite backfill_one_columns.
    now rewrite <- app_assoc.
Qed.

(** The backfill pass changes scores only. *)
Lemma backfill_columns (hs : list Row) :
  map columns (backfill hs) = map columns hs.
Proof. apply backfill_from_columns. Qed.

Lemma upsert_all_app (l1 l2 : list Row) (T : Table) :
  upsert_all (l1 ++ l2) T = upsert_all l2 (upsert_all l1 T).
Proof. apply fold_left_app. Qed.

(** After a run of upserts a key reads the last row written under it, or
    what it read before when none was. *)
Lemma find_by_hash_upsert_all (rows : list Row) (T : Table) (x : bytes) :
  find_by_hash (upsert_all rows T) x
  = match find (has_hash x) (rev rows) with
    | Some r => Some r
    | None => find_by_hash T x
    end.
Proof.
  revert T. induction rows as [|a rows IH]; intros T; [reflexivity|].
  change (upsert_all (a :: rows) T)
    with (upsert_all rows (insert_or_replace a T)).
  rewrite IH. simpl rev.
  change (find (has_hash x) (rev rows ++ [a]))
    with (find_by_hash (rev rows ++ [a]) x).
  rewrite find_by_hash_app.
  change (find_by_hash (rev rows) x) with (find (has_hash x) (rev rows)).
  destruct (find (has_hash x) (rev rows)); [reflexivity|].
  unfold find_by_hash at 2. simpl.
  destruct (has_hash x a) eqn:E.
  - apply has_hash_true in E. subst x. apply find_by_hash_upsert.
  - apply has_hash_false in E. apply find_by_hash_upsert_other. congruence.
Qed.

Lemma upsert_all_written (rows : list Row) (T : Table) (h : Row) :
  In h rows ->
  exists r, find_by_hash (upsert_all rows T) (hash h) = Some r /\ In r rows.
Proof.
  intros Hin. rewrite find_by_hash_upsert_all.
  destruct (find (has_hash (hash h)) (rev rows)) as [r|] eqn:E.
  - exists r. split; [reflexivity|].
    apply find_some in E. now apply in_rev.
  - exfalso. apply in_rev in Hin.
    pose proof (find_none _ _ E h Hin) as Hf.
    apply has_hash_false in Hf. now apply Hf.
Qed.

Lemma upsert_all_untouched (rows : list Row) (T : Table) (x : bytes) :
  (forall r, In r rows -> hash r <> x) ->
  find_by_hash (upsert_all rows T) x = find_by_hash T x.
Proof.
  intros H. rewrite find_by_hash_upsert_all.
  destruct (find (has_hash x) (rev rows)) as [r|] eqn:E; [|reflexivity].
  apply find_some in E. destruct E as [Hin Hh].
  apply has_hash_true in Hh. apply in_rev in Hin. now destruct (H r Hin).
Qed.


Lemma seed_from_columns (T : Table) (d0 : Z) (hs cut : list Row) :
  seed_from T d0 hs = Some cut ->
  forall r, In r cut -> exists h, In h hs /\ columns h = columns r.
Proof.
  revert cut. induction hs as [|h hs IH]; intros cut; simpl; [discriminate|].
  destruct (find_by_hash T (prev_block h)) as [parent|].
  - intros [= <-] r [<-|Hr].
    + exists h. split; [now left|reflexivity].
    + exists r. split; [now right|reflexivity].
  - intros H r Hr. destruct (IH cut H r Hr) as [q [Hq Hc]].
    exists q. split; [now right|assumption].
Qed.

Lemma seed_columns (T : Table) (hs : list Row) (r : Row) :
  In r (seed T hs) -> exists h, In h hs /\ columns h = columns r.
Proof.
  unfold seed. destruct hs as [|h0 hs]; [intros []|].
  destruct (seed_from T (difficulty h0) (h0 :: hs)) as [cut|] eqn:E.
  - now apply seed_from_columns with (1 := E).
  - intros Hr. now exists r.
Qed.

Lemma In_columns (l1 l2 : list Row) (r : Row) :
  map columns l1 = map columns l2 ->
  In r l1 -> exists h, In h l2 /\ columns h = columns r.
Proof.
  intros Hm Hr. apply (in_map columns) in Hr. rewrite Hm in Hr.
  apply in_map_iff in Hr. destruct Hr as [h [Hc Hh]]. now exists h.
Qed.


(** What a run of upserts of [rows] leaves in the store, when [rows]
    carries the columns of [kept]. *)
Lemma written_rows (rows kept : list Row) (T : Table) :
  map columns rows = map columns kept ->
  (forall h, In h kept ->
     exists r h', find_by_hash (upsert_all rows T) (hash h) = Some r /\
                  In h' kept /\ columns r = columns h') /\
  (forall x, (forall h, In h kept -> hash h <> x) ->
     find_by_hash (upsert_all rows T) x = find_by_hash T x).
Proof.
  intros Hm. split.
  - intros h Hh.
    destruct (In_columns kept rows h (eq_sym Hm) Hh) as [l [Hl Hc]].
    destruct (upsert_all_written rows T l Hl) as [r [Hf Hr]].
    destruct (In_columns rows kept r Hm Hr) as [h' [Hh' Hc']].
    exists r, h'. rewrite <- Hc. auto.
  - intros x Hx. apply upsert_all_untouched. intros r Hr.
    destruct (In_columns rows kept r Hm Hr) as [h' [Hh' Hc']].
    rewrite <- Hc'. now apply Hx.
Qed.

(** ** Batch accept: the claims *)

(** C1 on the code: the first surviving header [s] whose parent is stored
    gets the parent's height plus 1, and the parent's accumulated work plus
    the difficulty of the first surviving header of the batch, which is
    [s] only when no survivor stands in front of it.  At the batch
    [[stray_header; child_header]] over the store [[root_row]] the seeded
    header is [child_header], of difficulty 1, under a parent of work 10:
    it is stored with height 6 and accumulated work 266 = 10 + 256. *)
Theorem batch_seed_work (hash256 : bytes -> bytes) :
  (forall (T : Table) (pre post : list Row) (s parent : Row),
      (forall h, In h pre -> find_by_hash T (prev_block h) = None) ->
      find_by_hash T (prev_block s) = Some parent ->
      exists s' : Row,
        seed T (pre ++ s :: post) = s' :: post /\
        columns s' = columns s /\
        height s' = height parent + 1 /\
        accumulated_work s'
        = accumulated_work parent + difficulty (hd s pre)) /\
  difficulty stray_header = 256 /\
  difficulty child_header = 1 /\
  find_by_hash [root_row] (prev_block stray_header) = None /\
  find_by_hash [root_row] (prev_block child_header) = Some root_row /\
  height root_row = 5 /\ accumulated_work root_row = 10 /\
  batch_store_header hash256 no_faults
    [Dict stray_header; Dict child_header] [root_row]
  = (Return true, [root_row; mkRow child_header 6 266]).
Proof.
  split.
  - intros T pre post s parent Hpre Hs.
    rewrite (seed_cut T pre post s parent Hpre Hs).
    eexists. split; [reflexivity|]. simpl. auto.
  - repeat split.
Qed.

Lemma batch_seed_work_witness :
  seed [root_row] [set_score stray_header 0 0; set_score child_header 0 0]
  = [mkRow child_header 6 266].
Proof.
  destruct (proj1 (batch_seed_work zero_hash256) [root_row]
              [set_score stray_header 0 0] [] (set_score child_header 0 0)
              root_row)
    as [s' [Hseed [Hc [Hh Hw]]]].
  - intros h [<-|[]]. reflexivity.
  - reflexivity.
  - change (seed [root_row]
              ([set_score stray_header 0 0]
                 ++ set_score child_header 0 0 :: [])
            = [mkRow child_header 6 266]).
    rewrite Hseed. f_equal.
    destruct s' as [c n w].
    cbn [columns height accumulated_work] in Hc, Hh, Hw.
    subst c n w. vm_compute. reflexivity.
Defined.

(** C2, as stated, fails: [stray_header] meets its target, yet the batch
    [[stray_header; child_header]] succeeds without writing it. *)
Lemma batch_drops_valid_header :
  check_work stray_header = true /\
  batch_store_header zero_hash256 no_faults
    [Dict stray_header; Dict child_header] [root_row]
  = (Return true, [root_row; mkRow child_header 6 266]) /\
  find_by_hash [root_row; mkRow child_header 6 266] (hash stray_header)
  = None.
Proof. repeat split. Qed.

(** C2 (amended): in a batch whose arguments all parse and whose writes
    do not raise, the headers kept are the surviving headers from the first
    one whose parent is stored onwards, or every surviving header when no
    parent is stored; every kept header has a row under its hash after the
    call, carrying the columns of a kept header, keys of no kept header are
    left as they were, and the call does exactly what it does on the batch
    without the headers that fail [check_work]. *)
Theorem batch_persists_kept (hash256 : bytes -> bytes) (io : Faults)
        (hs : list HeaderArg) (T : Table) (tagged : list Row) :
  tag_all hash256 hs = Return tagged ->
  (forall T' r, execute_raises io T' r = false) ->
  (forall T', commit_raises io T' = false) ->
  exists T1 : Table,
    batch_store_header hash256 io hs T = (Return true, T1) /\
    batch_store_header hash256 io (filter (meets_target hash256) hs) T
    = (Return true, T1) /\
    forall kept : list Row,
      (kept = filter (fun h : Row => check_work h) tagged /\
       forall h, In h kept -> find_by_hash T (prev_block h) = None)
      \/ (exists pre s post parent,
             filter (fun h : Row => check_work h) tagged = pre ++ s :: post /\
             kept = s :: post /\
             (forall h, In h pre -> find_by_hash T (prev_block h) = None) /\
             find_by_hash T (prev_block s) = Some parent) ->
      (forall h, In h kept ->
         exists r h', find_by_hash T1 (hash h) = Some r /\
                      In h' kept /\ columns r = columns h') /\
      (forall x, (forall h, In h kept -> hash h <> x) ->
         find_by_hash T1 x = find_by_hash T x).
Proof.
  intros Ht He Hc.
  set (survivors := filter (fun h : Row => check_work h) tagged).
  exists (upsert_all (backfill (seed T survivors)) T).
  assert (Hb : batch_store_header hash256 io hs T
               = (Return true, upsert_all (backfill (seed T survivors)) T)).
  { rewrite (batch_unfold hash256 io hs T tagged Ht).
    fold survivors. now rewrite (persist_quiet io T _ He Hc). }
  split; [exact Hb|].
  split; [now rewrite <- (batch_drops_invalid hash256 io hs T tagged Ht)|].
  intros kept Hk. apply written_rows.
  rewrite backfill_columns.
  destruct Hk as [[-> Hnone]|[pre [s [post [parent [Hs [-> [Hpre Hp]]]]]]]].
  - fold survivors in Hnone |- *. now rewrite seed_none.
  - fold survivors in Hs. rewrite Hs.
    now rewrite (seed_cut T pre post s parent Hpre Hp).
Qed.

Lemma batch_persists_kept_witness :
  exists T1 : Table,
    batch_store_header zero_hash256 no_faults mixed_batch [root_row]
    = (Return true, T1) /\
    (exists r, find_by_hash T1 (hash child_header) = Some r /\
               columns r = fields child_header) /\
    find_by_hash T1 (hash weak_header) = None.
Proof.
  destruct (batch_persists_kept zero_hash256 no_faults mixed_batch [root_row]
              [set_score weak_header 0 0; set_score stray_header 0 0;
               set_score child_header 0 0]
              eq_refl (fun _ _ => eq_refl) (fun _ => eq_refl))
    as [T1 [H1 [_ H3]]].
  exists T1. split; [exact H1|].
  destruct (H3 [set_score child_header 0 0]) as [Hin Hout].
  { right. exists [set_score stray_header 0 0], (set_score child_header 0 0),
      [], root_row.
    split; [reflexivity|]. split; [reflexivity|]. split; [|reflexivity].
    intros h [<-|[]]. reflexivity. }
  split.
  - destruct (Hin (set_score child_header 0 0) (or_introl eq_refl))
      as [r [h' [Hf [[<-|[]] Hc]]]].
    exists r. split; [exact Hf|exact Hc].
  - rewrite Hout; [reflexivity|].
    intros h [<-|[]]. simpl. unfold large_hash, small_hash. simpl.
    discriminate.
Defined.

(** ** Results of the two entry points *)



(* ================================================================== *)
(** * Further properties of the code *)

(** ** Compact targets *)

Lemma make_target_bits4 (b0 b1 b2 b3 : byte) :
  let mantissa := byte_val b0 + 256 * byte_val b1 + 65536 * byte_val b2 in
  let exponent := byte_val b3 in
  make_target [b0; b1; b2; b3]
  = if 0 <=? exponent - 3 then mantissa * 256 ^ (exponent - 3)
    else mantissa / 256 ^ (3 - exponent).
Proof.
  intros mantissa exponent. unfold make_target.
  replace (le2i (but_last [b0; b1; b2; b3])) with mantissa
    by (unfold mantissa; cbn [but_last List.length Nat.sub firstn le2i]; lia).
  replace (be2i (last_byte [b0; b1; b2; b3])) with exponent
    by (unfold exponent, be2i;
        cbn [last_byte List.length Nat.sub skipn rev app le2i]; lia).
  replace (- (exponent - 3)) with (3 - exponent) by lia. reflexivity.
Qed.

(** [parse_difficulty] raises [ZeroDivisionError] on 4-byte bits exactly
    when the mantissa is zero, or the exponent byte is below 3 and the
    mantissa is below 256^(3 - exponent). *)
Theorem parse_difficulty_raises_iff (b0 b1 b2 b3 : byte) :
  let mantissa := byte_val b0 + 256 * byte_val b1 + 65536 * byte_val b2 in
  let exponent := byte_val b3 in
  parse_difficulty [b0; b1; b2; b3] = Raise ZeroDivisionError
  <-> mantissa = 0 \/ (exponent < 3 /\ mantissa < 256 ^ (3 - exponent)).
Proof.
  intros mantissa exponent.
  assert (Hm : 0 <= mantissa).
  { unfold mantissa. pose proof (byte_val_range b0).
    pose proof (byte_val_range b1). pose proof (byte_val_range b2). lia. }
  assert (Hz : make_target [b0; b1; b2; b3] = 0
               <-> mantissa = 0
                   \/ (exponent < 3 /\ mantissa < 256 ^ (3 - exponent))).
  { rewrite make_target_bits4. fold mantissa exponent.
    clearbody mantissa exponent.
    destruct (0 <=? exponent - 3) eqn:E.
    - apply Z.leb_le in E.
      assert (Hp : 0 < 256 ^ (exponent - 3))
        by (apply Z.pow_pos_nonneg; lia).
      set (P := 256 ^ (exponent - 3)) in *.
      split.
      + intros H0. apply Z.mul_eq_0 in H0. left. lia.
      + intros [->|[Hlt _]]; lia.
    - apply Z.leb_gt in E.
      assert (Hp : 0 < 256 ^ (3 - exponent))
        by (apply Z.pow_pos_nonneg; lia).
      set (P := 256 ^ (3 - exponent)) in *.
      rewrite Z.div_small_iff by lia.
      split.
      + intros [[_ Hlt]|[Hlt Hle]]; [right; split|]; lia.
      + intros [->|[_ Hlt]]; left; lia. }
  unfold parse_difficulty.
  destruct (make_target [b0; b1; b2; b3] =? 0) eqn:E.
  - apply Z.eqb_eq in E. split; [intros _; now apply Hz|reflexivity].
  - apply Z.eqb_neq in E. split; [discriminate|].
    intros H. now apply Hz in H.
Qed.

Lemma parse_difficulty_raises_iff_witness :
  parse_difficulty [xff; x00; x00; x01] = Raise ZeroDivisionError /\
  parse_difficulty [x00; x00; x00; x20] = Raise ZeroDivisionError.
Proof.
  split.
  - apply (parse_difficulty_raises_iff xff x00 x00 x01). right.
    split; vm_compute; reflexivity.
  - apply (parse_difficulty_raises_iff x00 x00 x00 x20). left. reflexivity.
Defined.

(** A difficulty [parse_difficulty] returns lies between 0 and the
    reference maximum target, and it is 0 exactly for the targets above the
    reference maximum. *)
Theorem parse_difficulty_bounds (nb : bytes) (d : Z) :
  parse_difficulty nb = Return d ->
  0 <= d <= make_target max_target_bits /\
  (d = 0 <-> make_target max_target_bits < make_target nb).
Proof.
  intros H. pose proof (parse_difficulty_euclid nb d H) as [Hlo Hhi].
  unfold parse_difficulty in H.
  destruct (make_target nb =? 0) eqn:E; [discriminate|].
  apply Z.eqb_neq in E. pose proof (make_target_nonneg nb) as Ht.
  assert (Hr : 0 <= make_target max_target_bits)
    by apply make_target_nonneg.
  set (t := make_target nb) in *.
  set (r := make_target max_target_bits) in *.
  split; [split; nia|]. split; [intros ->; lia|intros Hlt; nia].
Qed.

Lemma parse_difficulty_bounds_witness :
  parse_difficulty [xff; xff; x7f; x20] = Return 0 /\
  make_target max_target_bits < make_target [xff; xff; x7f; x20].
Proof.
  assert (Hd : parse_difficulty [xff; xff; x7f; x20] = Return 0)
    by (vm_compute; reflexivity).
  split; [exact Hd|].
  apply (proj1 (proj2 (parse_difficulty_bounds [xff; xff; x7f; x20] 0 Hd))).
  reflexivity.
Defined.

(** ** The wire layout read by [parse_header] *)

Lemma hex_digit_not_space (c : ascii) (n : N) :
  hex_digit c = Some n -> is_space c = false.
Proof.
  destruct c as [[] [] [] [] [] [] [] []]; vm_compute;
    intros H; try discriminate H; reflexivity.
Qed.

(** A string of [2 * n] hexadecimal digits decodes to [n] bytes. *)
Lemma bytes_fromhex_all_hex (n : nat) (s : string) :
  all_hex s = true ->
  String.length s = (2 * n)%nat ->
  exists b, bytes_fromhex s = Some b /\ List.length b = n.
Proof.
  revert s. induction n as [|n IH]; intros s Hh Hl.
  - destruct s; [|discriminate]. exists []. auto.
  - destruct s as [|c [|d rest]]; try (simpl in Hl; lia).
    simpl in Hh.
    destruct (hex_digit c) as [hi|] eqn:Ec; [|discriminate].
    destruct (hex_digit d) as [lo|] eqn:Ed; [|discriminate].
    destruct (IH rest Hh) as [b [Hb Hn]]; [simpl in Hl; lia|].
    exists (byte_of_nibbles hi lo :: b).
    cbn [bytes_fromhex]. rewrite (hex_digit_not_space c hi Ec), Ec, Ed, Hb.
    simpl. auto.
Qed.

Lemma firstn_plus {A : Type} (a c : nat) (l : list A) :
  firstn (a + c) l = firstn a l ++ firstn c (skipn a l).
Proof.
  revert l. induction a as [|a IH]; intros l; [reflexivity|].
  destruct l as [|x l]; simpl.
  - now rewrite firstn_nil.
  - now rewrite IH.
Qed.

Lemma slice_app (lo mid hi : nat) (b : bytes) :
  (lo <= mid <= hi)%nat ->
  slice lo mid b ++ slice mid hi b = slice lo hi b.
Proof.
  intros H. unfold slice.
  replace (hi - lo)%nat with ((mid - lo) + (hi - mid))%nat by lia.
  rewrite firstn_plus, skipn_skipn.
  now replace (mid - lo + lo)%nat with mid by lia.
Qed.

Lemma slice_length (lo hi : nat) (b : bytes) :
  (hi <= List.length b)%nat ->
  List.length (slice lo hi b) = (hi - lo)%nat.
Proof.
  intros H. unfold slice. rewrite length_firstn, length_skipn. lia.
Qed.

Lemma slice_all (b : bytes) : slice 0 (List.length b) b = b.
Proof. unfold slice. rewrite Nat.sub_0_r. apply firstn_all. Qed.

(** A raw header of 160 hexadecimal digits decodes to 80 bytes.  Unless
    its bits give a zero target (then [ZeroDivisionError] is raised), it
    parses: the six wire fields tile the 80 bytes in order, [prev_block]
    being byte-reversed; they have their wire widths; [hex] is the input
    and [hash] the reversed [hash256] of the bytes [hex] decodes to; no
    [height] or [accumulated_work] key is set. *)
Theorem parse_header_layout (hash256 : bytes -> bytes) (raw : string) :
  all_hex raw = true ->
  String.length raw = 160%nat ->
  exists b : bytes,
    bytes_fromhex raw = Some b /\ List.length b = 80%nat /\
    ((make_target (slice 72 76 b) = 0 /\
      parse_header hash256 raw = Raise ZeroDivisionError)
     \/
     exists h : Header,
       parse_header hash256 raw = Return h /\
       hex h = raw /\ hash h = rev (hash256 b) /\
       b = slice 0 4 b ++ rev (prev_block h) ++ merkle_root h
             ++ slice 68 72 b ++ nbits h ++ nonce h /\
       version h = le2i (slice 0 4 b) /\
       timestamp h = le2i (slice 68 72 b) /\
       0 <= version h < 2 ^ 32 /\ 0 <= timestamp h < 2 ^ 32 /\
       List.length (prev_block h) = 32%nat /\
       List.length (merkle_root h) = 32%nat /\
       List.length (nbits h) = 4%nat /\ List.length (nonce h) = 4%nat /\
       0 <= difficulty h /\
       height_key h = None /\ work_key h = None).
Proof.
  intros Hh Hl.
  destruct (bytes_fromhex_all_hex 80 raw Hh Hl) as [b [Hb Hn]].
  exists b. split; [exact Hb|]. split; [exact Hn|].
  unfold parse_header. rewrite Hl, Hb. cbn [Nat.eqb negb].
  destruct (parse_difficulty (slice 72 76 b)) as [d|e] eqn:Ed.
  - right. eexists. split; [reflexivity|]. cbn [bind fields hash hex
      prev_block merkle_root nbits nonce version timestamp difficulty
      height_key work_key].
    split; [reflexivity|]. split; [reflexivity|].
    split.
    { rewrite rev_involutive.
      rewrite (slice_app 72 76 80), (slice_app 68 72 80),
        (slice_app 36 68 80), (slice_app 4 36 80), (slice_app 0 4 80) by lia.
      rewrite <- Hn. symmetry. apply slice_all. }
    split; [reflexivity|]. split; [reflexivity|].
    assert (Hw : forall lo, (lo + 4 <= 80)%nat ->
                 0 <= le2i (slice lo (lo + 4) b) < 2 ^ 32).
    { intros lo Hlo. pose proof (le2i_range (slice lo (lo + 4) b)) as Hr.
      rewrite slice_length in Hr by lia.
      replace (lo + 4 - lo)%nat with 4%nat in Hr by lia. exact Hr. }
    split; [apply (Hw 0%nat); lia|]. split; [apply (Hw 68%nat); lia|].
    rewrite length_rev, !slice_length by lia.
    repeat (split; [reflexivity|]).
    split; [|auto].
    pose proof (parse_difficulty_bounds _ _ Ed). lia.
  - left. unfold parse_difficulty in Ed.
    destruct (make_target (slice 72 76 b) =? 0) eqn:E; [|discriminate].
    apply Z.eqb_eq in E. injection Ed as <-. auto.
Qed.

Lemma parse_header_layout_witness :
  exists b : bytes,
    bytes_fromhex orphan_raw = Some b /\ List.length b = 80%nat /\
    parse_header zero_hash256 orphan_raw = Return orphan_header.
Proof.
  destruct (parse_header_layout zero_hash256 orphan_raw eq_refl eq_refl)
    as [b [Hb [Hn _]]].
  exists b. split; [exact Hb|]. split; [exact Hn|]. reflexivity.
Defined.

(** ** Arguments that do not parse *)

Lemma tag_all_raises (hash256 : bytes -> bytes) (hs : list HeaderArg)
      (a : HeaderArg) (e : Exn) :
  In a hs -> as_dict hash256 a = Raise e ->
  exists e', tag_all hash256 hs = Raise e'.
Proof.
  induction hs as [|x hs IH]; intros Hin Ha; [destruct Hin|].
  simpl. destruct Hin as [->|Hin].
  - rewrite Ha. simpl. eauto.
  - destruct (as_dict hash256 x); simpl; [|eauto].
    destruct (IH Hin Ha) as [e' ->]. simpl. eauto.
Qed.

(** A raw header that does not parse makes [store_header] raise the
    parser's exception, and makes every batch that holds it raise before
    anything is written, whatever else the batch holds. *)
Theorem unparsable_aborts (hash256 : bytes -> bytes) (io : Faults)
        (hs : list HeaderArg) (T : Table) (raw : string) (e : Exn) :
  parse_header hash256 raw = Raise e ->
  In (Raw raw) hs ->
  store_header hash256 io (Raw raw) T = (Raise e, T) /\
  exists e', batch_store_header hash256 io hs T = (Raise e', T).
Proof.
  intros Hp Hin. split.
  - now apply store_header_raises.
  - destruct (tag_all_raises hash256 hs (Raw raw) e Hin Hp) as [e' He].
    exists e'. now apply batch_raises.
Qed.

Lemma unparsable_aborts_witness :
  store_header zero_hash256 no_faults (Raw "00") [root_row]
  = (Raise ValueError, [root_row]) /\
  exists e',
    batch_store_header zero_hash256 no_faults
      [Dict child_header; Raw "00"] [root_row]
    = (Raise e', [root_row]).
Proof.
  apply (unparsable_aborts zero_hash256 no_faults
           [Dict child_header; Raw "00"] [root_row] "00" ValueError).
  - reflexivity.
  - right. left. reflexivity.
Defined.

(** ** Scoring in single-header accept *)

(** A header without [height] whose parent is stored is written with the
    parent's height plus 1 and the parent's accumulated work plus its own
    difficulty, and reads back so. *)
Theorem store_header_child (hash256 : bytes -> bytes) (io : Faults)
        (a : HeaderArg) (T : Table) (h : Header) (parent : Row) :
  quiet io ->
  as_dict hash256 a = Return h ->
  height_key h = None ->
  check_work h = true ->
  find_by_hash T (prev_block h) = Some parent ->
  let r := mkRow h (height parent + 1)
                   (accumulated_work parent + difficulty h) in
  store_header hash256 io a T = (Return true, insert_or_replace r T) /\
  find_by_hash (insert_or_replace r T) (hash h) = Some r.
Proof.
  intros [He Hc] Ha Hk Hw Hp r. split.
  - rewrite (store_header_accepts hash256 io a T h r Ha Hw
               (score_child T h parent Hk Hp)).
    now rewrite He, Hc.
  - apply (find_by_hash_upsert r T).
Qed.

Lemma quiet_no_faults : quiet no_faults.
Proof. split; reflexivity. Qed.

Lemma store_header_child_witness :
  store_header zero_hash256 no_faults (Dict child_header) [root_row]
  = (Return true, [root_row; mkRow child_header 6 11]).
Proof.
  apply (store_header_child zero_hash256 no_faults (Dict child_header)
           [root_row] child_header root_row quiet_no_faults);
    reflexivity.
Defined.

(** A dict that already carries [height] is not scored from the store: it
    is written with the height and accumulated work it carries, and when
    it lacks [accumulated_work] the write fails and the store is left as
    it was. *)
Theorem store_header_scored_dict (hash256 : bytes -> bytes) (io : Faults)
        (T : Table) (h : Header) (n : Z) :
  quiet io ->
  height_key h = Some n ->
  check_work h = true ->
  match work_key h with
  | Some w =>
      store_header hash256 io (Dict h) T
      = (Return true, insert_or_replace (mkRow h n w) T)
  | None => store_header hash256 io (Dict h) T = (Return false, T)
  end.
Proof.
  intros [He Hc] Hk Hw. unfold store_header, score, bindings. simpl.
  rewrite Hw, Hk. simpl. rewrite Hk.
  destruct (work_key h) as [w|]; [|reflexivity].
  now rewrite He, Hc.
Qed.

Lemma store_header_scored_dict_witness :
  store_header zero_hash256 no_faults (Dict scored_dict) [root_row]
  = (Return true, [root_row; mkRow child_header 42 7]) /\
  store_header zero_hash256 no_faults (Dict half_scored_dict) [root_row]
  = (Return false, [root_row]).
Proof.
  split.
  - apply (store_header_scored_dict zero_hash256 no_faults [root_row]
             scored_dict 42 quiet_no_faults); reflexivity.
  - apply (store_header_scored_dict zero_hash256 no_faults [root_row]
             half_scored_dict 42 quiet_no_faults); reflexivity.
Defined.

(** ** Sequences of single-header accepts *)

(** Two headers stored parent first, above a stored ancestor [g]: the
    second ends two above [g], with the work of [g] plus both
    difficulties. *)
Theorem store_in_order (hash256 : bytes -> bytes) (io : Faults)
        (a1 a2 : HeaderArg) (T : Table) (h1 h2 : Header) (g : Row) :
  quiet io ->
  as_dict hash256 a1 = Return h1 -> as_dict hash256 a2 = Return h2 ->
  height_key h1 = None -> height_key h2 = None ->
  check_work h1 = true -> check_work h2 = true ->
  find_by_hash T (prev_block h1) = Some g ->
  prev_block h2 = hash h1 ->
  exists T1 T2 : Table,
    store_header hash256 io a1 T = (Return true, T1) /\
    store_header hash256 io a2 T1 = (Return true, T2) /\
    find_by_hash T2 (hash h2)
    = Some (mkRow h2 (height g + 2)
                     (accumulated_work g + difficulty h1 + difficulty h2)).
Proof.
  intros Hq Ha1 Ha2 Hk1 Hk2 Hw1 Hw2 Hg Hlink.
  destruct (store_header_child hash256 io a1 T h1 g Hq Ha1 Hk1 Hw1 Hg)
    as [Hs1 Hf1].
  set (r1 := mkRow h1 (height g + 1) (accumulated_work g + difficulty h1))
    in *.
  assert (Hp2 : find_by_hash (insert_or_replace r1 T) (prev_block h2)
                = Some r1) by (rewrite Hlink; exact Hf1).
  destruct (store_header_child hash256 io a2 _ h2 r1 Hq Ha2 Hk2 Hw2 Hp2)
    as [Hs2 Hf2].
  eexists. eexists. split; [exact Hs1|]. split; [exact Hs2|].
  rewrite Hf2. unfold r1. simpl. do 2 f_equal; lia.
Qed.

Lemma store_in_order_witness :
  exists T1 T2 : Table,
    store_header zero_hash256 no_faults (Dict child_header) [root_row]
    = (Return true, T1) /\
    store_header zero_hash256 no_faults (Dict grandchild_header) T1
    = (Return true, T2) /\
    find_by_hash T2 (hash grandchild_header)
    = Some (mkRow grandchild_header 7 267).
Proof.
  apply (store_in_order zero_hash256 no_faults (Dict child_header)
           (Dict grandchild_header) [root_row] child_header
           grandchild_header root_row quiet_no_faults);
    reflexivity.
Defined.

(** The same two headers stored child first: the child, its parent not
    yet stored, is written with height 1 and its own difficulty as work,
    and storing the parent afterwards does not score it again. *)
Theorem store_out_of_order (hash256 : bytes -> bytes) (io : Faults)
        (a1 a2 : HeaderArg) (T : Table) (h1 h2 : Header) (g : Row) :
  quiet io ->
  as_dict hash256 a1 = Return h1 -> as_dict hash256 a2 = Return h2 ->
  height_key h1 = None -> height_key h2 = None ->
  check_work h1 = true -> check_work h2 = true ->
  find_by_hash T (prev_block h1) = Some g ->
  prev_block h2 = hash h1 ->
  find_by_hash T (hash h1) = None ->
  hash h1 <> hash h2 -> prev_block h1 <> hash h2 ->
  exists T1 T2 : Table,
    store_header hash256 io a2 T = (Return true, T1) /\
    store_header hash256 io a1 T1 = (Return true, T2) /\
    find_by_hash T2 (hash h2) = Some (mkRow h2 1 (difficulty h2)) /\
    find_by_hash T2 (hash h1)
    = Some (mkRow h1 (height g + 1) (accumulated_work g + difficulty h1)).
Proof.
  intros Hq Ha1 Ha2 Hk1 Hk2 Hw1 Hw2 Hg Hlink Hnone Hne Hcyc.
  destruct Hq as [He Hc].
  assert (Hp2 : find_by_hash T (prev_block h2) = None)
    by now rewrite Hlink.
  set (r2 := mkRow h2 1 (difficulty h2)).
  assert (Hs2 : store_header hash256 io a2 T
                = (Return true, insert_or_replace r2 T)).
  { rewrite (store_header_accepts hash256 io a2 T h2 r2 Ha2 Hw2
               (score_orphan T h2 Hk2 Hp2)).
    now rewrite He, Hc. }
  assert (Hg' : find_by_hash (insert_or_replace r2 T) (prev_block h1)
                = Some g).
  { rewrite find_by_hash_upsert_other; [exact Hg|exact Hcyc]. }
  destruct (store_header_child hash256 io a1 _ h1 g (conj He Hc) Ha1 Hk1
              Hw1 Hg') as [Hs1 Hf1].
  eexists. eexists. split; [exact Hs2|]. split; [exact Hs1|].
  split; [|exact Hf1].
  rewrite find_by_hash_upsert_other.
  - apply (find_by_hash_upsert r2 T).
  - simpl. congruence.
Qed.

Lemma store_out_of_order_witness :
  exists T1 T2 : Table,
    store_header zero_hash256 no_faults (Dict grandchild_header) [root_row]
    = (Return true, T1) /\
    store_header zero_hash256 no_faults (Dict child_header) T1
    = (Return true, T2) /\
    find_by_hash T2 (hash grandchild_header)
    = Some (mkRow grandchild_header 1 256) /\
    find_by_hash T2 (hash child_header) = Some (mkRow child_header 6 11).
Proof.
  apply (store_out_of_order zero_hash256 no_faults (Dict child_header)
           (Dict grandchild_header) [root_row] child_header
           grandchild_header root_row quiet_no_faults);
    try reflexivity.
  - change (small_hash x02 <> small_hash x04).
    intros E. apply small_hash_inj in E. discriminate E.
  - change (small_hash x01 <> small_hash x04).
    intros E. apply small_hash_inj in E. discriminate E.
Defined.

(** ** What the two entry points leave in the store *)

(** Whatever happens inside the [try] block, the table is left as a run
    of upserts of a prefix of the rows. *)
Lemma persist_prefix (io : Faults) (T : Table) (rows : list Row) :
  exists pre post,
    rows = pre ++ post /\ snd (persist io T rows) = upsert_all pre T.
Proof.
  revert T. induction rows as [|r rows IH]; intros T; simpl.
  - exists [], []. split; [reflexivity|].
    now destruct (commit_raises io T).
  - destruct (execute_raises io T r).
    + exists [], (r :: rows). auto.
    + destruct (IH (insert_or_replace r T)) as [pre [post [-> Hs]]].
      exists (r :: pre), post. auto.
Qed.

Lemma tag_all_origin (hash256 : bytes -> bytes) (hs : list HeaderArg)
      (tagged : list Row) (r : Row) :
  tag_all hash256 hs = Return tagged -> In r tagged ->
  exists a h, In a hs /\ as_dict hash256 a = Return h /\
              columns r = fields h /\ height r = 0 /\
              accumulated_work r = 0.
Proof.
  revert tagged. induction hs as [|a hs IH]; intros tagged Ht Hr.
  - simpl in Ht. injection Ht as <-. destruct Hr.
  - apply tag_all_cons in Ht. destruct Ht as [h [tl [Ha [Ht ->]]]].
    destruct Hr as [<-|Hr].
    + exists a, h. simpl. auto.
    + destruct (IH tl Ht Hr) as [a' [h' [Hin H]]].
      exists a', h'. split; [now right|exact H].
Qed.

(** The rows a batch may write, whatever the outcome, carry the columns
    of arguments of the batch. *)
Lemma batch_rows_origin (hash256 : bytes -> bytes) (hs : list HeaderArg)
      (T : Table) (tagged : list Row) (r : Row) :
  tag_all hash256 hs = Return tagged ->
  In r (backfill (seed T (filter (fun h : Row => check_work h) tagged))) ->
  exists a h, In a hs /\ as_dict hash256 a = Return h /\
              columns r = fields h.
Proof.
  intros Ht Hr.
  destruct (In_columns _ _ r (backfill_columns _) Hr) as [q [Hq Hc]].
  destruct (seed_columns _ _ _ Hq) as [s [Hs Hc']].
  apply filter_In in Hs. destruct Hs as [Hs _].
  destruct (tag_all_origin hash256 hs tagged s Ht Hs)
    as [a [h [Hin [Ha [Hcol _]]]]].
  exists a, h. split; [exact Hin|]. split; [exact Ha|]. congruence.
Qed.

Lemma batch_store (hash256 : bytes -> bytes) (io : Faults)
      (hs : list HeaderArg) (T : Table) :
  snd (batch_store_header hash256 io hs T) = T \/
  exists tagged pre post,
    tag_all hash256 hs = Return tagged /\
    backfill (seed T (filter (fun h : Row => check_work h) tagged))
    = pre ++ post /\
    snd (batch_store_header hash256 io hs T) = upsert_all pre T.
Proof.
  destruct (tag_all hash256 hs) as [tagged|e] eqn:Ht.
  - right. rewrite (batch_unfold hash256 io hs T tagged Ht). simpl.
    destruct (persist_prefix io T
                (backfill (seed T
                   (filter (fun h : Row => check_work h) tagged))))
      as [pre [post [Hrows Hs]]].
    exists tagged, pre, post. auto.
  - left. now rewrite (batch_raises hash256 io hs T e Ht).
Qed.

Lemma store_header_store (hash256 : bytes -> bytes) (io : Faults)
      (a : HeaderArg) (T : Table) :
  snd (store_header hash256 io a T) = T \/
  exists h r,
    as_dict hash256 a = Return h /\ columns r = fields h /\
    snd (store_header hash256 io a T) = insert_or_replace r T.
Proof.
  unfold store_header. destruct (as_dict hash256 a) as [h|e]; [|now left].
  destruct (check_work h); simpl; [|now left].
  destruct (bindings (score T h)) as [r|] eqn:Hb; [|now left].
  destruct (execute_raises io T r); [now left|].
  right. exists h, r. split; [reflexivity|].
  destruct (bindings_columns _ _ Hb) as [Hc _]. rewrite score_fields in Hc.
  split; [exact Hc|]. now destruct (commit_raises io _).
Qed.

Lemma upsert_all_keeps (rows : list Row) (T : Table) (x : bytes) (r : Row) :
  find_by_hash T x = Some r ->
  exists r', find_by_hash (upsert_all rows T) x = Some r'.
Proof.
  intros H. rewrite find_by_hash_upsert_all, H.
  destruct (find (has_hash x) (rev rows)); eauto.
Qed.

Lemma upsert_all_NoDup (rows : list Row) (T : Table) :
  NoDup (keys T) -> NoDup (keys (upsert_all rows T)).
Proof.
  revert T. induction rows as [|r rows IH]; intros T H; [exact H|].
  apply (IH (insert_or_replace r T)). now apply upsert_NoDup.
Qed.

(** Unless it reports a failure, a call removes no key: a hash found
    before a call that returns true, or that raises on an argument, is
    found after it. *)
Theorem unfailed_call_keeps_keys (hash256 : bytes -> bytes) (io : Faults)
        (T : Table) (x : bytes) (r : Row) :
  find_by_hash T x = Some r ->
  (forall a,
      fst (store_header hash256 io a T) <> Return false ->
      exists r',
        find_by_hash (snd (store_header hash256 io a T)) x = Some r') /\
  (forall hs,
      fst (batch_store_header hash256 io hs T) <> Return false ->
      exists r',
        find_by_hash (snd (batch_store_header hash256 io hs T)) x
        = Some r').
Proof.
  intros H. split.
  - intros a _. destruct (store_header_store hash256 io a T)
      as [->|[h [q [_ [_ ->]]]]]; [eauto|].
    apply (upsert_all_keeps [q] T x r H).
  - intros hs _. destruct (batch_store hash256 io hs T)
      as [->|[tagged [pre [post [_ [_ ->]]]]]]; [eauto|].
    apply (upsert_all_keeps pre T x r H).
Qed.

Lemma unfailed_call_keeps_keys_witness :
  (exists r',
      find_by_hash (snd (store_header zero_hash256 no_faults
                           (Dict child_header) forked_table))
        (hash fork_a) = Some r') /\
  (exists r',
      find_by_hash (snd (batch_store_header zero_hash256 no_faults
                           mixed_batch forked_table))
        (hash fork_a) = Some r').
Proof.
  assert (Hf : find_by_hash forked_table (hash fork_a) = Some fork_a)
    by (vm_compute; reflexivity).
  destruct (unfailed_call_keeps_keys zero_hash256 no_faults forked_table
              (hash fork_a) fork_a Hf) as [H1 H2].
  split.
  - apply H1. vm_compute. discriminate.
  - apply H2. vm_compute. discriminate.
Defined.

(** Writes go under the hashes of the arguments; on the faults covered
    here, which leave the transaction open, also when the call fails. *)
Lemma call_touches_own_keys (hash256 : bytes -> bytes) (io : Faults)
      (T : Table) (x : bytes) :
  (forall a,
      (forall h, as_dict hash256 a = Return h -> hash h <> x) ->
      find_by_hash (snd (store_header hash256 io a T)) x
      = find_by_hash T x) /\
  (forall hs,
      (forall a h, In a hs -> as_dict hash256 a = Return h -> hash h <> x) ->
      find_by_hash (snd (batch_store_header hash256 io hs T)) x
      = find_by_hash T x).
Proof.
  split.
  - intros a Hx. destruct (store_header_store hash256 io a T)
      as [->|[h [q [Ha [Hc ->]]]]]; [reflexivity|].
    apply find_by_hash_upsert_other. rewrite Hc.
    intros E. now apply (Hx h Ha).
  - intros hs Hx. destruct (batch_store hash256 io hs T)
      as [->|[tagged [pre [post [Ht [Hrows ->]]]]]]; [reflexivity|].
    apply upsert_all_untouched. intros q Hq.
    destruct (batch_rows_origin hash256 hs T tagged q Ht)
      as [a [h [Hin [Ha Hc]]]].
    + rewrite Hrows. apply in_or_app. now left.
    + rewrite Hc. now apply (Hx a h).
Qed.

(** Unless it reports a failure, a call writes under the hashes of its
    arguments only: a key that is the hash of no argument reads, after a
    call that returns true or raises on an argument, what it read
    before. *)
Theorem unfailed_call_touches_own_keys (hash256 : bytes -> bytes)
        (io : Faults) (T : Table) (x : bytes) :
  (forall a,
      fst (store_header hash256 io a T) <> Return false ->
      (forall h, as_dict hash256 a = Return h -> hash h <> x) ->
      find_by_hash (snd (store_header hash256 io a T)) x
      = find_by_hash T x) /\
  (forall hs,
      fst (batch_store_header hash256 io hs T) <> Return false ->
      (forall a h, In a hs -> as_dict hash256 a = Return h -> hash h <> x) ->
      find_by_hash (snd (batch_store_header hash256 io hs T)) x
      = find_by_hash T x).
Proof.
  destruct (call_touches_own_keys hash256 io T x) as [H1 H2].
  split.
  - intros a _. apply H1.
  - intros hs _. apply H2.
Qed.

Lemma unfailed_call_touches_own_keys_witness :
  find_by_hash (snd (store_header zero_hash256 no_faults
                       (Dict child_header) forked_table)) (hash fork_b)
  = Some fork_b.
Proof.
  destruct (unfailed_call_touches_own_keys zero_hash256 no_faults
              forked_table (hash fork_b)) as [H _].
  rewrite H; [vm_compute; reflexivity|vm_compute; discriminate|].
  intros h [= <-]. change (small_hash x02 <> small_hash x03).
  intros E. apply small_hash_inj in E. discriminate E.
Defined.

(** The primary key stays unique through every call, whatever its
    outcome. *)
Theorem store_keeps_keys_unique (hash256 : bytes -> bytes) (io : Faults)
        (T : Table) :
  NoDup (keys T) ->
  (forall a, NoDup (keys (snd (store_header hash256 io a T)))) /\
  (forall hs, NoDup (keys (snd (batch_store_header hash256 io hs T)))).
Proof.
  intros H. split.
  - intros a. destruct (store_header_store hash256 io a T)
      as [->|[h [q [_ [_ ->]]]]]; [exact H|].
    now apply upsert_NoDup.
  - intros hs. destruct (batch_store hash256 io hs T)
      as [->|[tagged [pre [post [_ [_ ->]]]]]]; [exact H|].
    now apply upsert_all_NoDup.
Qed.

Lemma store_keeps_keys_unique_witness :
  NoDup (keys (snd (batch_store_header zero_hash256 no_faults mixed_batch
                      forked_table))).
Proof.
  apply (store_keeps_keys_unique zero_hash256 no_faults forked_table
           forked_table_keys).
Defined.

(** ** Point lookups and aggregates *)

Lemma find_by_hash_first (T : Table) (r : Row) :
  NoDup (keys T) -> In r T -> find_by_hash T (hash r) = Some r.
Proof.
  unfold find_by_hash, keys.
  induction T as [|q T IH]; intros Hnd Hin; [destruct Hin|].
  simpl in *. inversion Hnd as [|? ? Hq Hnd']; subst.
  destruct Hin as [->|Hin].
  - replace (has_hash (hash r) r) with true; [reflexivity|].
    symmetry. now apply has_hash_true.
  - destruct (has_hash (hash r) q) eqn:E; [|now apply IH].
    apply has_hash_true in E. exfalso. apply Hq. rewrite E.
    now apply (in_map (fun r' : Row => hash r')).
Qed.

(** [find_by_hash] finds nothing exactly for the hashes that are no key of
    the table; what it finds is a stored row of that hash; and with unique
    keys every stored row is found under its hash. *)
Theorem find_by_hash_lookup (T : Table) :
  (forall x, find_by_hash T x = None <-> ~ In x (keys T)) /\
  (forall x r, find_by_hash T x = Some r -> In r T /\ hash r = x) /\
  (NoDup (keys T) -> forall r, In r T -> find_by_hash T (hash r) = Some r).
Proof.
  split; [|split].
  - intros x. rewrite find_by_hash_none. unfold keys. split.
    + intros H Hin. apply in_map_iff in Hin.
      destruct Hin as [r [Hr Hin]]. now apply (H r).
    + intros H r Hin Hr. apply H. apply in_map_iff. now exists r.
  - apply find_by_hash_some.
  - intros Hnd r. now apply find_by_hash_first.
Qed.

Lemma find_by_hash_lookup_witness :
  find_by_hash forked_table (hash fork_b) = Some fork_b.
Proof.
  apply (proj2 (proj2 (find_by_hash_lookup forked_table))).
  - apply forked_table_keys.
  - right. right. left. reflexivity.
Defined.

(** [find_highest] returns exactly the stored rows that no stored row
    exceeds in height, and it is [find_by_height] at the height of any row
    it returns. *)
Theorem find_highest_max (T : Table) (r : Row) :
  (In r (find_highest T)
   <-> In r T /\ forall r', In r' T -> height r' <= height r) /\
  (In r (find_highest T) -> find_highest T = find_by_height T (height r)).
Proof.
  split; [apply where_max_spec|].
  unfold find_highest, where_max, find_by_height.
  destruct (sql_max (map height T)) as [m|]; [|intros []].
  intros Hin. apply filter_In in Hin. destruct Hin as [_ Hm].
  apply Z.eqb_eq in Hm. now rewrite Hm.
Qed.

Lemma find_highest_max_witness :
  In fork_a (find_highest forked_table) /\
  find_highest forked_table = find_by_height forked_table 6.
Proof.
  assert (H : In fork_a (find_highest forked_table)).
  { apply (proj1 (find_highest_max forked_table fork_a)).
    split; [right; left; reflexivity|].
    intros r' [<-|[<-|[<-|[]]]]; simpl; lia. }
  split; [exact H|].
  exact (proj2 (find_highest_max forked_table fork_a) H).
Defined.

Lemma filter_all {A : Type} (f : A -> bool) (l : list A) :
  (forall x, In x l -> f x = true) -> filter f l = l.
Proof.
  induction l as [|x l IH]; intros H; simpl; [reflexivity|].
  rewrite (H x) by now left. f_equal. apply IH. intros y Hy. apply H.
  now right.
Qed.

Lemma filter_none {A : Type} (f : A -> bool) (l : list A) :
  (forall x, In x l -> f x = false) -> filter f l = [].
Proof.
  induction l as [|x l IH]; intros H; simpl; [reflexivity|].
  rewrite (H x) by now left. apply IH. intros y Hy. apply H. now right.
Qed.

Lemma upsert_fresh (r : Row) (T : Table) :
  find_by_hash T (hash r) = None -> insert_or_replace r T = T ++ [r].
Proof.
  intros H. unfold insert_or_replace. f_equal. apply filter_all.
  intros q Hq. apply negb_true_iff, has_hash_false.
  now apply (proj1 (find_by_hash_none T (hash r)) H).
Qed.

(** Storing a new child, of positive difficulty, of a header of maximal
    accumulated work makes that child the one heaviest header. *)
Theorem heaviest_after_child (hash256 : bytes -> bytes) (io : Faults)
        (a : HeaderArg) (T : Table) (h : Header) (p : Row) :
  quiet io ->
  as_dict hash256 a = Return h ->
  height_key h = None ->
  check_work h = true ->
  find_by_hash T (prev_block h) = Some p ->
  In p (find_heaviest T) ->
  0 < difficulty h ->
  find_by_hash T (hash h) = None ->
  find_heaviest (snd (store_header hash256 io a T))
  = [mkRow h (height p + 1) (accumulated_work p + difficulty h)].
Proof.
  intros Hq Ha Hk Hw Hp Hmax Hd Hnew.
  destruct (store_header_child hash256 io a T h p Hq Ha Hk Hw Hp)
    as [-> _]. simpl snd.
  set (r := mkRow h (height p + 1) (accumulated_work p + difficulty h)).
  rewrite (upsert_fresh r T Hnew).
  apply where_max_spec in Hmax. destruct Hmax as [_ Hmax].
  assert (Hlow : forall q, In q T -> accumulated_work q < accumulated_work r).
  { intros q Hin. specialize (Hmax q Hin). simpl. lia. }
  unfold find_heaviest, where_max.
  destruct (sql_max (map accumulated_work (T ++ [r]))) as [m|] eqn:E.
  - apply sql_max_spec in E. destruct E as [Hin Hall].
    assert (Hm : m = accumulated_work r).
    { apply in_map_iff in Hin. destruct Hin as [q [<- Hq']].
      apply in_app_iff in Hq'. destruct Hq' as [Hq'|[<-|[]]]; [|reflexivity].
      specialize (Hlow q Hq').
      assert (accumulated_work r <= accumulated_work q).
      { apply Hall. apply in_map. apply in_or_app. right. now left. }
      lia. }
    subst m. rewrite filter_app. simpl. rewrite Z.eqb_refl.
    rewrite filter_none; [reflexivity|].
    intros q Hq'. apply Z.eqb_neq. specialize (Hlow q Hq').
    unfold r in Hlow. simpl in Hlow. lia.
  - destruct T; discriminate E.
Qed.

Lemma heaviest_after_child_witness :
  find_heaviest (snd (store_header zero_hash256 no_faults
                        (Dict grandchild_header) forked_table))
  = [mkRow grandchild_header 7 267].
Proof.
  apply (heaviest_after_child zero_hash256 no_faults
           (Dict grandchild_header) forked_table grandchild_header fork_a
           quiet_no_faults); try (vm_compute; reflexivity).
  vm_compute. left. reflexivity.
Defined.

(** A row read from the store and stored again, as the dict
    [header_from_row] makes of it, changes what no key reads. *)
Theorem restore_row (hash256 : bytes -> bytes) (io : Faults)
        (T : Table) (x : bytes) (r : Row) :
  quiet io ->
  find_by_hash T x = Some r ->
  check_work r = true ->
  exists T1,
    store_header hash256 io (Dict (header_from_row r)) T = (Return true, T1)
    /\ forall y, find_by_hash T1 y = find_by_hash T y.
Proof.
  intros Hq Hf Hw.
  exists (insert_or_replace r T).
  split.
  - assert (H := store_header_scored_dict hash256 io T (header_from_row r)
                   (height r) Hq eq_refl Hw).
    cbn [header_from_row work_key fields] in H.
    now replace (mkRow r (height r) (accumulated_work r)) with r in H
      by now destruct r.
  - intros y. destruct (find_by_hash_some T x r Hf) as [_ Hx].
    destruct (list_eq_dec Byte.byte_eq_dec y (hash r)) as [->|Hne].
    + rewrite find_by_hash_upsert. now rewrite Hx.
    + now apply find_by_hash_upsert_other.
Qed.

Lemma restore_row_witness :
  exists T1,
    store_header zero_hash256 no_faults (Dict (header_from_row fork_a))
      forked_table = (Return true, T1)
    /\ forall y, find_by_hash T1 y = find_by_hash forked_table y.
Proof.
  apply (restore_row zero_hash256 no_faults forked_table (hash fork_a)
           fork_a quiet_no_faults); vm_compute; reflexivity.
Defined.

(** ** The backfill pass *)

Lemma backfill_one_cases (hs : list Row) (h : Row) :
  backfill_one hs h = h \/
  exists parent,
    height h = 0 /\ In parent hs /\ hash parent = prev_block h /\
    0 < height parent /\
    backfill_one hs h
    = set_score h (height parent + 1)
                  (accumulated_work parent + difficulty h).
Proof.
  unfold backfill_one. destruct (height h =? 0) eqn:E; [|now left].
  apply Z.eqb_eq in E.
  destruct (filter (has_hash (prev_block h)) hs) as [|p l] eqn:F;
    [now left|].
  assert (Hp : In p (filter (has_hash (prev_block h)) hs))
    by (rewrite F; now left).
  apply filter_In in Hp. destruct Hp as [Hin Hh].
  apply has_hash_true in Hh.
  destruct (0 <? height p) eqn:L; [|now left].
  apply Z.ltb_lt in L. right. exists p. auto.
Qed.

Lemma backfill_from_spec (done todo : list Row) :
  exists todo',
    backfill_from done todo = done ++ todo' /\
    Forall2 (fun a b : Row =>
               columns b = columns a /\
               (b = a \/ (height a = 0 /\ 1 < height b)))
            todo todo'.
Proof.
  revert done. induction todo as [|h rest IH]; intros done; simpl.
  - exists []. rewrite app_nil_r. auto.
  - destruct (IH (done ++ [backfill_one (done ++ h :: rest) h]))
      as [rest' [Hb Hf]].
    exists (backfill_one (done ++ h :: rest) h :: rest').
    rewrite Hb, <- app_assoc. split; [reflexivity|].
    constructor; [|exact Hf].
    split; [apply backfill_one_columns|].
    destruct (backfill_one_cases (done ++ h :: rest) h)
      as [->|[p [H0 [_ [_ [Hp ->]]]]]]; [now left|].
    right. simpl. split; [exact H0|lia].
Qed.

(** The backfill pass keeps the order and the columns of the headers, and
    changes the score of a header only if its height was 0, in which case
    it ends at a height above 1. *)
Theorem backfill_changes_unresolved_only (headers : list Row) :
  Forall2 (fun a b : Row =>
             columns b = columns a /\
             (b = a \/ (height a = 0 /\ 1 < height b)))
          headers (backfill headers).
Proof.
  destruct (backfill_from_spec [] headers) as [l [Hb Hf]].
  unfold backfill. now rewrite Hb.
Qed.

Lemma backfill_from_unresolved (done todo : list Row) :
  (forall r, In r (done ++ todo) -> height r <= 0) ->
  backfill_from done todo = done ++ todo.
Proof.
  revert done. induction todo as [|h rest IH]; intros done H; simpl.
  - now rewrite app_nil_r.
  - assert (Hone : backfill_one (done ++ h :: rest) h = h).
    { destruct (backfill_one_cases (done ++ h :: rest) h)
        as [E|[p [_ [Hin [_ [Hp _]]]]]]; [exact E|].
      specialize (H p Hin). lia. }
    rewrite Hone, IH, <- app_assoc; [reflexivity|].
    intros r Hr. apply H. now rewrite <- app_assoc in Hr.
Qed.

(** When no surviving header of a batch has a stored parent, every
    survivor is written with height 0 and accumulated work 0. *)
Theorem batch_unresolved (hash256 : bytes -> bytes) (io : Faults)
        (hs : list HeaderArg) (T : Table) (tagged : list Row) :
  quiet io ->
  tag_all hash256 hs = Return tagged ->
  (forall h, In h tagged -> check_work h = true ->
             find_by_hash T (prev_block h) = None) ->
  exists T1,
    batch_store_header hash256 io hs T = (Return true, T1) /\
    forall h, In h tagged -> check_work h = true ->
      exists r, find_by_hash T1 (hash h) = Some r /\
                height r = 0 /\ accumulated_work r = 0.
Proof.
  intros [He Hc] Ht Hnone.
  set (survivors := filter (fun h : Row => check_work h) tagged).
  assert (Hs : forall h, In h survivors ->
                 In h tagged /\ check_work h = true)
    by (intros h Hh; now apply filter_In in Hh).
  assert (Hz : forall r, In r survivors ->
                 height r = 0 /\ accumulated_work r = 0).
  { intros r Hr. destruct (Hs r Hr) as [Hin _].
    destruct (tag_all_origin hash256 hs tagged r Ht Hin)
      as [a [h [_ [_ [_ Hz]]]]]. exact Hz. }
  assert (Hrows : backfill (seed T survivors) = survivors).
  { rewrite seed_none.
    - apply (backfill_from_unresolved [] survivors).
      intros r Hr. destruct (Hz r Hr). lia.
    - intros h Hh. destruct (Hs h Hh). now apply Hnone. }
  exists (upsert_all survivors T). split.
  - rewrite (batch_unfold hash256 io hs T tagged Ht).
    fold survivors. now rewrite Hrows, (persist_quiet io T _ He Hc).
  - intros h Hin Hw.
    assert (Hh : In h survivors) by (apply filter_In; auto).
    destruct (upsert_all_written survivors T h Hh) as [r [Hf Hr]].
    exists r. split; [exact Hf|now apply Hz].
Qed.

Lemma batch_unresolved_witness :
  exists T1,
    batch_store_header zero_hash256 no_faults
      [Dict weak_header; Dict stray_header] [root_row] = (Return true, T1) /\
    exists r, find_by_hash T1 (hash stray_header) = Some r /\
              height r = 0 /\ accumulated_work r = 0.
Proof.
  destruct (batch_unresolved zero_hash256 no_faults
              [Dict weak_header; Dict stray_header] [root_row]
              [set_score weak_header 0 0; set_score stray_header 0 0]
              quiet_no_faults eq_refl) as [T1 [Hb Hall]].
  - intros h [<-|[<-|[]]] Hw; [discriminate Hw|].
    vm_compute. reflexivity.
  - exists T1. split; [exact Hb|].
    apply (Hall (set_score stray_header 0 0)).
    + right. left. reflexivity.
    + vm_compute. reflexivity.
Defined.

(** ** A contiguous batch *)

Lemma filter_unique_key (l : list Row) (p : Row) :
  NoDup (keys l) -> In p l -> filter (has_hash (hash p)) l = [p].
Proof.
  unfold keys. induction l as [|q l IH]; intros Hnd Hin; [destruct Hin|].
  simpl in *. inversion Hnd as [|? ? Hq Hnd']; subst.
  destruct Hin as [->|Hin].
  - replace (has_hash (hash p) p) with true
      by (symmetry; now apply has_hash_true).
    f_equal. apply filter_none. intros r Hr. apply has_hash_false.
    intros E. apply Hq. rewrite <- E.
    now apply (in_map (fun r' : Row => hash r')).
  - destruct (has_hash (hash p) q) eqn:E; [|now apply IH].
    apply has_hash_true in E. exfalso. apply Hq. rewrite E.
    now apply (in_map (fun r' : Row => hash r')).
Qed.

Lemma backfill_from_chain (cs done : list Row) (p : Row) :
  In p done ->
  NoDup (keys (done ++ cs)) ->
  0 < height p ->
  chained (hash p) cs ->
  (forall c, In c cs -> height c = 0) ->
  backfill_from done cs = done ++ scored_above p cs.
Proof.
  revert done p. induction cs as [|c rest IH];
    intros done p Hp Hnd Hpos Hch Hz; simpl.
  - now rewrite app_nil_r.
  - destruct Hch as [Hlink Hch].
    set (c' := set_score c (height p + 1)
                         (accumulated_work p + difficulty c)).
    assert (Hone : backfill_one (done ++ c :: rest) c = c').
    { unfold backfill_one. rewrite (Hz c) by now left. simpl.
      rewrite Hlink, (filter_unique_key _ p Hnd)
        by (apply in_or_app; now left).
      replace (0 <? height p) with true
        by (symmetry; now apply Z.ltb_lt).
      reflexivity. }
    rewrite Hone, (IH (done ++ [c']) c').
    + now rewrite <- app_assoc.
    + apply in_or_app. right. now left.
    + rewrite <- app_assoc. simpl.
      unfold keys in *. rewrite map_app in *. exact Hnd.
    + simpl. lia.
    + exact Hch.
    + intros q Hq. apply Hz. now right.
Qed.

Lemma scored_above_heights (p : Row) (cs : list Row) :
  map height (scored_above p cs)
  = map (fun i => height p + 1 + Z.of_nat i) (seq 0 (List.length cs)).
Proof.
  revert p. induction cs as [|c rest IH]; intros p; [reflexivity|].
  cbn [scored_above List.length seq map]. f_equal; [simpl; lia|].
  rewrite IH, <- seq_shift, map_map. apply map_ext.
  intros i. simpl height. lia.
Qed.

(** A batch of headers that all meet their target, have distinct hashes
    and arrive as a chain above a stored header [P] (each naming the one
    before it as parent) is resolved whole in the one pass: the headers
    are written with the consecutive heights above [P], each with the
    accumulated work of the one before it plus its own difficulty. *)
Theorem batch_chain (hash256 : bytes -> bytes) (io : Faults)
        (hs : list HeaderArg) (T : Table) (s0 : Row) (cs : list Row)
        (P : Row) :
  quiet io ->
  tag_all hash256 hs = Return (s0 :: cs) ->
  forallb (fun h : Row => check_work h) (s0 :: cs) = true ->
  find_by_hash T (prev_block s0) = Some P ->
  0 <= height P ->
  NoDup (keys (s0 :: cs)) ->
  chained (hash s0) cs ->
  let s := mkRow s0 (height P + 1) (accumulated_work P + difficulty s0) in
  batch_store_header hash256 io hs T
  = (Return true, upsert_all (s :: scored_above s cs) T) /\
  map height (s :: scored_above s cs)
  = map (fun i => height P + 1 + Z.of_nat i)
        (seq 0 (S (List.length cs))).
Proof.
  intros [He Hc] Ht Hw HP Hpos Hnd Hch s. split.
  - rewrite (batch_unfold hash256 io hs T (s0 :: cs) Ht).
    rewrite filter_all by (apply forallb_forall; exact Hw).
    assert (Hseed : seed T (s0 :: cs) = s :: cs).
    { apply (seed_cut T [] cs s0 P); [intros h []|exact HP]. }
    rewrite Hseed.
    assert (Hb : backfill (s :: cs) = s :: scored_above s cs).
    { unfold backfill. cbn [backfill_from app].
      assert (Hs : backfill_one (s :: cs) s = s).
      { unfold backfill_one.
        replace (height s =? 0) with false; [reflexivity|].
        symmetry. apply Z.eqb_neq. simpl. lia. }
      rewrite Hs.
      apply (backfill_from_chain cs [s] s).
      - now left.
      - exact Hnd.
      - simpl. lia.
      - exact Hch.
      - intros c Hin.
        destruct (tag_all_origin hash256 hs (s0 :: cs) c Ht
                    (or_intror Hin)) as [a [h [_ [_ [_ [Hz _]]]]]].
        exact Hz. }
    now rewrite Hb, (persist_quiet io T _ He Hc).
  - cbn [map seq]. f_equal; [simpl; lia|].
    rewrite scored_above_heights, <- seq_shift, map_map.
    apply map_ext. intros i. simpl height. lia.
Qed.

Lemma batch_chain_witness :
  batch_store_header zero_hash256 no_faults
    [Dict child_header; Dict grandchild_header] [root_row]
  = (Return true,
     [root_row; mkRow child_header 6 11; mkRow grandchild_header 7 267]).
Proof.
  assert (Hnd : NoDup (keys [set_score child_header 0 0;
                             set_score grandchild_header 0 0])).
  { change (NoDup [small_hash x02; small_hash x04]).
    repeat constructor; simpl;
      intros H; repeat destruct H as [H|H];
      try apply small_hash_inj in H; try discriminate H; assumption. }
  assert (Hw : forallb (fun h : Row => check_work h)
                 [set_score child_header 0 0;
                  set_score grandchild_header 0 0] = true)
    by (vm_compute; reflexivity).
  assert (HP : find_by_hash [root_row]
                 (prev_block (set_score child_header 0 0)) = Some root_row)
    by (vm_compute; reflexivity).
  assert (Hpos : 0 <= height root_row) by (vm_compute; discriminate).
  assert (Hch : chained (hash (set_score child_header 0 0))
                  [set_score grandchild_header 0 0])
    by (split; [vm_compute; reflexivity|exact I]).
  destruct (batch_chain zero_hash256 no_faults
              [Dict child_header; Dict grandchild_header] [root_row]
              (set_score child_header 0 0)
              [set_score grandchild_header 0 0] root_row
              quiet_no_faults eq_refl Hw HP Hpos Hnd Hch) as [Hb _].
  rewrite Hb. vm_compute. reflexivity.
Defined.

(** ** Order inside a batch *)

Lemma backfill_from_early_child (pre done post : list Row) (c : Row) :
  (forall q, In q (done ++ pre) -> hash q <> prev_block c) ->
  (forall q, In q (c :: post) -> hash q = prev_block c -> height q <= 0) ->
  exists pre' post',
    backfill_from done (pre ++ c :: post) = done ++ pre' ++ c :: post' /\
    List.length pre' = List.length pre.
Proof.
  revert done. induction pre as [|h pre IH]; intros done Hd Hp.
  - cbn [app backfill_from].
    assert (Hc : backfill_one (done ++ c :: post) c = c).
    { destruct (backfill_one_cases (done ++ c :: post) c)
        as [E|[p [_ [Hin [Hh [Hpos _]]]]]]; [exact E|].
      apply in_app_iff in Hin. destruct Hin as [Hin|Hin].
      - exfalso. apply (Hd p); [now rewrite app_nil_r|exact Hh].
      - specialize (Hp p Hin Hh). lia. }
    rewrite Hc.
    destruct (backfill_from_spec (done ++ [c]) post) as [post' [Hb _]].
    exists [], post'. rewrite Hb, <- app_assoc. auto.
  - cbn [app backfill_from].
    set (h' := backfill_one (done ++ h :: pre ++ c :: post) h).
    destruct (IH (done ++ [h'])) as [pre' [post' [Hb Hl]]].
    + intros q Hq. rewrite <- app_assoc in Hq.
      apply in_app_iff in Hq. destruct Hq as [Hq|[<-|Hq]].
      * apply Hd. apply in_or_app. now left.
      * unfold h'.
        replace (hash (backfill_one (done ++ h :: pre ++ c :: post) h))
          with (hash h) by now rewrite backfill_one_columns.
        apply Hd. apply in_or_app. right. now left.
      * apply Hd. apply in_or_app. right. now right.
    + exact Hp.
    + exists (h' :: pre'), post'. rewrite Hb, <- app_assoc.
      split; [reflexivity|]. simpl. now rewrite Hl.
Qed.

(** The pass visits the headers in list order, once: a header at height 0
    that stands in front of its parent in the batch, the parent still at
    height 0, is left unresolved by this call. *)
Theorem backfill_skips_early_child (pre post : list Row) (c : Row) :
  (forall q, In q pre -> hash q <> prev_block c) ->
  (forall q, In q (c :: post) -> hash q = prev_block c -> height q <= 0) ->
  exists pre' post',
    backfill (pre ++ c :: post) = pre' ++ c :: post' /\
    List.length pre' = List.length pre.
Proof.
  intros Hd Hp. apply (backfill_from_early_child pre [] post c Hd Hp).
Qed.

Lemma backfill_skips_early_child_witness :
  exists pre' post',
    backfill [mkRow stray_header 3 3;
              set_score grandchild_header 0 0;
              set_score child_header 0 0]
    = pre' ++ set_score grandchild_header 0 0 :: post' /\
    List.length pre' = 1%nat.
Proof.
  apply (backfill_skips_early_child [mkRow stray_header 3 3]
           [set_score child_header 0 0] (set_score grandchild_header 0 0)).
  - intros q [<-|[]]. change (small_hash x07 <> small_hash x02).
    intros E. apply small_hash_inj in E. discriminate E.
  - intros q [<-|[<-|[]]] _; simpl; lia.
Defined.

(** ** Proof of work in batch accept *)

(** A batch that does not report a failure has written no header that
    fails [check_work]: a key under which the batch holds nothing but
    headers failing [check_work] reads, after a call that returns true or
    raises on an argument, what it read before. *)
Theorem unfailed_batch_writes_no_invalid (hash256 : bytes -> bytes)
        (io : Faults) (hs : list HeaderArg) (T : Table) (x : bytes) :
  fst (batch_store_header hash256 io hs T) <> Return false ->
  (forall a h, In a hs -> as_dict hash256 a = Return h -> hash h = x ->
               check_work h = false) ->
  find_by_hash (snd (batch_store_header hash256 io hs T)) x
  = find_by_hash T x.
Proof.
  intros _ Hx. destruct (tag_all hash256 hs) as [tagged|e] eqn:Ht.
  - rewrite (batch_drops_invalid hash256 io hs T tagged Ht).
    apply (proj2 (call_touches_own_keys hash256 io T x)).
    intros a h Hin Ha Hh. apply filter_In in Hin.
    destruct Hin as [Hin Hm]. unfold meets_target in Hm.
    rewrite Ha in Hm. rewrite (Hx a h Hin Ha Hh) in Hm. discriminate Hm.
  - now rewrite (batch_raises hash256 io hs T e Ht).
Qed.

Lemma unfailed_batch_writes_no_invalid_witness :
  find_by_hash (snd (batch_store_header zero_hash256 no_faults mixed_batch
                       [root_row])) (hash weak_header)
  = None.
Proof.
  rewrite (unfailed_batch_writes_no_invalid zero_hash256 no_faults
             mixed_batch [root_row] (hash weak_header)).
  - vm_compute. reflexivity.
  - vm_compute. discriminate.
  - intros a h [<-|[<-|[<-|[]]]] [= <-] Hh.
    + vm_compute. reflexivity.
    + exfalso. revert Hh. change (small_hash x07 <> large_hash).
      unfold small_hash, large_hash. simpl. discriminate.
    + exfalso. revert Hh. change (small_hash x02 <> large_hash).
      unfold small_hash, large_hash. simpl. discriminate.
Defined.
